(** * LSB steganography codec: a shallow embedding of [steganography.py]

    The development follows the three entry points of the module
    ([encode_message], [decode_message], [image_capacity]) and the two
    bit helpers ([_text_to_bits], [_bits_to_text]).  Python integers are
    [Z], a [str] is the list of its code points, a [bytes] object is a list
    of integers in [0, 256), exceptions are values of an error monad, and
    the file system seen through [Image.open] / [Image.save] is a finite
    map from paths to decoded pictures. *)

From Stdlib Require Import ZArith Lia.
From stdpp Require Import gmap strings list.

Local Open Scope Z_scope.

Ltac Zify.zify_post_hook ::= Z.to_euclidean_division_equations.

(** ** Python values *)

Module Py.

(** A [str] is a sequence of code points; [ord] is the identity. *)
Definition str := list Z.

(** A [bytes] / [bytearray] value; every element is in [0, 256). *)
Definition bytes := list Z.

Definition is_byte (b : Z) : bool := (0 <=? b) && (b <? 256).
Definition is_bytes (bs : bytes) : bool := forallb is_byte bs.

(** [len] returns a Python integer. *)
Definition len {A} (l : list A) : Z := Z.of_nat (length l).

(** The exceptions the module can meet. *)
Inductive exn : Type :=
| FileNotFoundError
| UnidentifiedImageError
| UnicodeEncodeError
| UnicodeDecodeError
| IndexError
| ValueError.

(** Computations that may raise. *)
Definition result (A : Type) : Type := (exn + A)%type.
Definition ret {A} (a : A) : result A := inr a.
Definition raise {A} (e : exn) : result A := inl e.
Definition bind {A B} (m : result A) (k : A -> result B) : result B :=
  match m with
  | inl e => inl e
  | inr a => k a
  end.

(** A literal of ASCII characters as a [str]. *)
Definition lit (s : string) : str :=
  map (fun a => Z.of_N (Ascii.N_of_ascii a)) (String.list_ascii_of_string s).

(** *** [str.encode("utf-8")]

    One code point becomes one to four bytes; a surrogate (or a value that
    is no code point at all) raises [UnicodeEncodeError]. *)
Definition utf8_encode_char (c : Z) : result bytes :=
  if c <? 0 then raise UnicodeEncodeError
  else if c <? 0x80 then ret [c]
  else if c <? 0x800 then ret [0xC0 + c / 64; 0x80 + c mod 64]
  else if c <? 0x10000 then
    if (0xD800 <=? c) && (c <=? 0xDFFF) then raise UnicodeEncodeError
    else ret [0xE0 + c / 4096; 0x80 + (c / 64) mod 64; 0x80 + c mod 64]
  else if c <? 0x110000 then
    ret [0xF0 + c / 262144; 0x80 + (c / 4096) mod 64;
         0x80 + (c / 64) mod 64; 0x80 + c mod 64]
  else raise UnicodeEncodeError.

Fixpoint utf8_encode (s : str) : result bytes :=
  match s with
  | [] => ret []
  | c :: s' =>
      bind (utf8_encode_char c) (fun bs =>
      bind (utf8_encode s') (fun rest => ret (bs ++ rest)))
  end.

(** *** [bytes.decode("utf-8")]

    The strict decoder: continuation bytes are checked, and overlong
    forms, surrogates and values above U+10FFFF raise
    [UnicodeDecodeError]. *)
Definition is_cont (b : Z) : bool := (0x80 <=? b) && (b <=? 0xBF).

Fixpoint utf8_decode (bs : bytes) : result str :=
  match bs with
  | [] => ret []
  | b0 :: t0 =>
      if (0 <=? b0) && (b0 <? 0x80) then
        bind (utf8_decode t0) (fun s => ret (b0 :: s))
      else if (0xC2 <=? b0) && (b0 <=? 0xDF) then
        match t0 with
        | b1 :: t1 =>
            if is_cont b1 then
              bind (utf8_decode t1) (fun s =>
              ret ((b0 - 0xC0) * 64 + (b1 - 0x80) :: s))
            else raise UnicodeDecodeError
        | _ => raise UnicodeDecodeError
        end
      else if (0xE0 <=? b0) && (b0 <=? 0xEF) then
        match t0 with
        | b1 :: b2 :: t2 =>
            let c := (b0 - 0xE0) * 4096 + (b1 - 0x80) * 64 + (b2 - 0x80) in
            if is_cont b1 && is_cont b2 && (0x800 <=? c)
               && negb ((0xD800 <=? c) && (c <=? 0xDFFF)) then
              bind (utf8_decode t2) (fun s => ret (c :: s))
            else raise UnicodeDecodeError
        | _ => raise UnicodeDecodeError
        end
      else if (0xF0 <=? b0) && (b0 <=? 0xF4) then
        match t0 with
        | b1 :: b2 :: b3 :: t3 =>
            let c := (b0 - 0xF0) * 262144 + (b1 - 0x80) * 4096
                     + (b2 - 0x80) * 64 + (b3 - 0x80) in
            if is_cont b1 && is_cont b2 && is_cont b3
               && (0x10000 <=? c) && (c <? 0x110000) then
              bind (utf8_decode t3) (fun s => ret (c :: s))
            else raise UnicodeDecodeError
        | _ => raise UnicodeDecodeError
        end
      else raise UnicodeDecodeError
  end.

(** *** [bytes.decode("latin-1")]: byte [b] is code point [b]; never raises. *)
Definition latin1_decode (bs : bytes) : str := bs.

(** [chr(b)] *)
Definition chr (b : Z) : Z := b.

End Py.

Import Py.

Notation "'let*' x ':=' e 'in' k" := (bind e (fun x => k))
  (at level 10, x name, e at level 100, k at level 200).

(** ** The imaging library, as the codec sees it *)

Module PIL.

Definition pixel : Type := (Z * Z * Z)%type.

(** A decoded image: [size], [mode], [getbands()], and the pixel data of
    its [convert("RGB")] view in scan order ([list(img.getdata())]). *)
Record Image : Type := mkImage {
  im_size : Z * Z;
  im_mode : string;
  im_bands : list string;
  im_rgb : list pixel
}.

(** What a path holds: a picture, or something the library cannot read. *)
Inductive file : Type :=
| Picture (im : Image)
| Garbage.

(** [Image.open(path)] *)
Definition open (fs : gmap string file) (path : string) : result Image :=
  match fs !! path with
  | None => raise FileNotFoundError
  | Some Garbage => raise UnidentifiedImageError
  | Some (Picture im) => ret im
  end.

(** [img = Image.new("RGB", size); img.putdata(data)] *)
Definition new_RGB (size : Z * Z) (data : list pixel) : Image :=
  {| im_size := size; im_mode := "RGB"; im_bands := ["R"; "G"; "B"]%string;
     im_rgb := data |}.

(** [img.save(path, format="PNG")]: lossless, so the picture read back is
    the picture written. *)
Definition save (fs : gmap string file) (path : string) (im : Image)
  : gmap string file :=
  <[path := Picture im]> fs.

(** Every picture the library hands out has [width * height] pixels of
    three 8-bit channels. *)
Definition wf_pixel (p : pixel) : bool :=
  let '(r, g, b) := p in is_byte r && is_byte g && is_byte b.

Definition wf_image (im : Image) : bool :=
  let '(w, h) := im_size im in
  (0 <=? w) && (0 <=? h) && (len (im_rgb im) =? w * h)
  && forallb wf_pixel (im_rgb im).

End PIL.

Import PIL.

(** ** The codec *)

(** [DELIMITER = "<<END>>"] *)
Definition DELIMITER : str := lit "<<END>>".

(** The loop [for i in range(7, -1, -1): bits.append((byte >> i) & 1)]. *)
Definition byte_bits (byte : Z) : list Z :=
  map (fun i => Z.land (Z.shiftr byte i) 1) [7; 6; 5; 4; 3; 2; 1; 0].

(** The loop [byte = 0; for bit in bits8: byte = (byte << 1) | bit]. *)
Definition bits_byte (bits8 : list Z) : Z :=
  fold_left (fun byte bit => Z.lor (Z.shiftl byte 1) bit) bits8 0.

Definition _text_to_bits (text : str) : result (list Z) :=
  let* bs := utf8_encode text in
  ret (flat_map byte_bits bs).

(** [chr(i)] raises [ValueError] outside [range(0x110000)]; this cannot
    happen for bits that are 0 or 1. *)
Definition chr_checked (i : Z) : result Z :=
  if (0 <=? i) && (i <? 0x110000) then ret (chr i) else raise ValueError.

(** Slices of 8 bits at [range(0, len(bits), 8)]; a slice shorter than 8
    ends the loop. *)
Fixpoint _bits_to_text (bits : list Z) : result str :=
  match bits with
  | b0 :: b1 :: b2 :: b3 :: b4 :: b5 :: b6 :: b7 :: rest =>
      let* c := chr_checked (bits_byte [b0; b1; b2; b3; b4; b5; b6; b7]) in
      let* chars := _bits_to_text rest in
      ret (c :: chars)
  | _ => ret []
  end.

(** [sum(ord(c) for c in password) % 256] *)
Definition shift_of (password : str) : Z :=
  fold_left Z.add password 0 mod 256.

(** Lines 59-61 of [encode_message]: the byte shift, skipped for an empty
    password. *)
Definition apply_shift (payload_bytes : bytes) (password : str) : bytes :=
  match password with
  | [] => payload_bytes
  | _ :: _ =>
      let shift := shift_of password in
      map (fun b => (b + shift) mod 256) payload_bytes
  end.

(** Lines 161-163 of [decode_message]. *)
Definition reverse_shift (payload_bytes : bytes) (password : str) : bytes :=
  match password with
  | [] => payload_bytes
  | _ :: _ =>
      let shift := shift_of password in
      map (fun b => (b - shift) mod 256) payload_bytes
  end.

(** [[channel for pixel in pixels for channel in pixel]] *)
Definition flatten (pixels : list pixel) : list Z :=
  flat_map (fun p : pixel => let '(r, g, b) := p in [r; g; b]) pixels.

(** [enumerate(bits)] *)
Definition enumerate {A} (l : list A) : list (nat * A) :=
  zip (seq 0 (length l)) l.

(** [for idx, bit in enumerate(bits): flat_pixels[idx] = (flat_pixels[idx] & ~1) | bit];
    an index past the end raises. *)
Fixpoint embed (flat_pixels : list Z) (ibits : list (nat * Z)) : result (list Z) :=
  match ibits with
  | [] => ret flat_pixels
  | (idx, bit) :: rest =>
      match flat_pixels !! idx with
      | None => raise IndexError
      | Some v =>
          embed (<[idx := Z.lor (Z.land v (Z.lnot 1)) bit]> flat_pixels) rest
      end
  end.

(** [[(flat[i], flat[i + 1], flat[i + 2]) for i in range(0, len(flat), 3)]] *)
Fixpoint regroup (flat_pixels : list Z) : result (list pixel) :=
  match flat_pixels with
  | [] => ret []
  | r :: g :: b :: rest =>
      let* ps := regroup rest in ret ((r, g, b) :: ps)
  | _ => raise IndexError
  end.

(** The texts of the result dictionaries, with the values they interpolate. *)
Inductive status : Type :=
| TooLarge (can_hold required : Z)
| Hidden
| ImageNotFound
| Error (e : exn)
| NoHiddenMessage
| Extracted.

Record encode_result : Type := mkEncodeResult {
  enc_success : bool;
  enc_message : status;
  enc_capacity : Z;
  enc_used : Z
}.

Record decode_result : Type := mkDecodeResult {
  dec_success : bool;
  dec_message : status;
  dec_secret : option str
}.

Inductive capacity_result : Type :=
| CapacityOk (width height : Z) (mode : string) (capacity_chars : Z)
| CapacityFailed (e : exn).

(** The body of [encode_message]'s [try]: the result, and the picture to
    save when there is one. *)
Definition encode_try (fs : gmap string file) (image_path : string)
    (message : str) (password : str) : result (encode_result * option Image) :=
  let* img := PIL.open fs image_path in
  let pixels := im_rgb img in
  let '(width, height) := im_size img in
  let capacity_bits := width * height * 3 in
  let capacity_chars := capacity_bits / 8 in
  let* payload_bytes := utf8_encode message in
  let payload_bytes := apply_shift payload_bytes password in
  let* delimiter_bytes := utf8_encode DELIMITER in
  let full_payload_bytes := payload_bytes ++ delimiter_bytes in
  let bits := flat_map byte_bits full_payload_bytes in
  if len bits >? capacity_bits then
    ret ({| enc_success := false;
            enc_message := TooLarge (capacity_chars - len DELIMITER)
                                    (len full_payload_bytes);
            enc_capacity := capacity_chars;
            enc_used := len full_payload_bytes |}, None)
  else
    let flat_pixels := flatten pixels in
    let* flat_pixels := embed flat_pixels (enumerate bits) in
    let* new_pixels := regroup flat_pixels in
    let new_img := new_RGB (width, height) new_pixels in
    ret ({| enc_success := true;
            enc_message := Hidden;
            enc_capacity := capacity_chars;
            enc_used := len full_payload_bytes |}, Some new_img).

Definition encode_message (fs : gmap string file) (image_path : string)
    (message : str) (output_path : string) (password : str)
  : encode_result * gmap string file :=
  match encode_try fs image_path message password with
  | inr (r, Some new_img) => (r, save fs output_path new_img)
  | inr (r, None) => (r, fs)
  | inl FileNotFoundError =>
      ({| enc_success := false; enc_message := ImageNotFound;
          enc_capacity := 0; enc_used := 0 |}, fs)
  | inl exc =>
      ({| enc_success := false; enc_message := Error exc;
          enc_capacity := 0; enc_used := 0 |}, fs)
  end.

(** [l[-n:]] and [l[:-n]] *)
Definition last_n {A} (n : nat) (l : list A) : list A :=
  match n with O => l | _ => drop (length l - n) l end.
Definition but_last_n {A} (n : nat) (l : list A) : list A :=
  match n with O => [] | _ => take (length l - n) l end.

(** The scanning loop of [decode_message]: [Some payload] when it breaks
    with [found = True], [None] when the bits run out. *)
Fixpoint scan (delimiter_bytes : bytes) (raw_bits : list Z)
    (buffer : list Z) (payload_bytes : bytes) : option bytes :=
  match raw_bits with
  | [] => None
  | bit :: raw_bits' =>
      let buffer := buffer ++ [bit] in
      if decide (length buffer = 8%nat) then
        let payload_bytes := payload_bytes ++ [bits_byte buffer] in
        if bool_decide (length delimiter_bytes <= length payload_bytes)%nat
           && bool_decide (last_n (length delimiter_bytes) payload_bytes
                           = delimiter_bytes)
        then Some (but_last_n (length delimiter_bytes) payload_bytes)
        else scan delimiter_bytes raw_bits' [] payload_bytes
      else scan delimiter_bytes raw_bits' buffer payload_bytes
  end.

Definition decode_try (fs : gmap string file) (image_path : string)
    (password : str) : result decode_result :=
  let* img := PIL.open fs image_path in
  let pixels := im_rgb img in
  let flat_pixels := flatten pixels in
  let raw_bits := map (fun p => Z.land p 1) flat_pixels in
  let* delimiter_bytes := utf8_encode DELIMITER in
  match scan delimiter_bytes raw_bits [] [] with
  | None =>
      ret {| dec_success := false; dec_message := NoHiddenMessage;
             dec_secret := None |}
  | Some payload_bytes =>
      let payload_bytes := reverse_shift payload_bytes password in
      let payload :=
        match utf8_decode payload_bytes with
        | inr s => s
        | inl _ => latin1_decode payload_bytes
        end in
      ret {| dec_success := true; dec_message := Extracted;
             dec_secret := Some payload |}
  end.

Definition decode_message (fs : gmap string file) (image_path : string)
    (password : str) : decode_result :=
  match decode_try fs image_path password with
  | inr r => r
  | inl FileNotFoundError =>
      {| dec_success := false; dec_message := ImageNotFound; dec_secret := None |}
  | inl exc =>
      {| dec_success := false; dec_message := Error exc; dec_secret := None |}
  end.

Definition image_capacity (fs : gmap string file) (image_path : string)
  : capacity_result :=
  match
    (let* img := PIL.open fs image_path in
     let '(w, h) := im_size img in
     let mode := im_mode img in
     let channels := len (im_bands img) in
     let capacity_bits := w * h * Z.min channels 3 in
     let capacity_chars := capacity_bits / 8 in
     let usable := capacity_chars - len DELIMITER - 10 in
     ret (CapacityOk w h mode (Z.max usable 0)))
  with
  | inr r => r
  | inl exc => CapacityFailed exc
  end.

(** ** Notions used in the statements and proofs *)

(** The value stored by the embedding loop: [(v & ~1) | bit]. *)
Definition set_lsb (v bit : Z) : Z := Z.lor (Z.land v (Z.lnot 1)) bit.

(** [p & 1] *)
Definition lsb (p : Z) : Z := Z.land p 1.

(** A bit is 0 or 1. *)
Definition is_bit (b : Z) : bool := (b =? 0) || (b =? 1).

(** The bytes a bit stream spells, eight bits at a time; a trailing group
    of fewer than eight bits spells nothing. *)
Fixpoint bytes_of_bits (bits : list Z) : bytes :=
  match bits with
  | b0 :: b1 :: b2 :: b3 :: b4 :: b5 :: b6 :: b7 :: rest =>
      bits_byte [b0; b1; b2; b3; b4; b5; b6; b7] :: bytes_of_bits rest
  | _ => []
  end.

(** The delimiter occupies bytes [n .. n + len(delimiter)) of [bs]. *)
Definition delimiter_at (bs : bytes) (n : nat) : Prop :=
  take (length DELIMITER) (drop n bs) = DELIMITER.

(** The first place where the delimiter occurs in [bs]. *)
Definition first_delimiter (bs : bytes) (n : nat) : Prop :=
  delimiter_at bs n /\ forall j, (j < n)%nat -> ~ delimiter_at bs j.

(** The loop of [scan], seen one completed byte at a time. *)
Fixpoint scan_bytes (delimiter_bytes : bytes) (bs : bytes) (payload_bytes : bytes)
  : option bytes :=
  match bs with
  | [] => None
  | b :: bs' =>
      let payload_bytes := payload_bytes ++ [b] in
      if bool_decide (length delimiter_bytes <= length payload_bytes)%nat
         && bool_decide (last_n (length delimiter_bytes) payload_bytes
                         = delimiter_bytes)
      then Some (but_last_n (length delimiter_bytes) payload_bytes)
      else scan_bytes delimiter_bytes bs' payload_bytes
  end.

(** Lines 166-169 of [decode_message]: UTF-8, or Latin-1 when that fails. *)
Definition decode_text (payload_bytes : bytes) : str :=
  match utf8_decode payload_bytes with
  | inr s => s
  | inl _ => latin1_decode payload_bytes
  end.

(** The bytes spelled by the least significant bits of a picture's channels. *)
Definition stream (img : Image) : bytes :=
  bytes_of_bits (map lsb (flatten (im_rgb img))).

(** The bit stream [encode_message] embeds for the UTF-8 bytes [u]. *)
Definition payload_bits (u : bytes) (password : str) : list Z :=
  flat_map byte_bits (apply_shift u password ++ DELIMITER).

(** The two result dictionaries [encode_message] builds itself. *)
Definition encode_ok (img : Image) (u : bytes) (password : str) : encode_result :=
  {| enc_success := true; enc_message := Hidden;
     enc_capacity := (im_size img).1 * (im_size img).2 * 3 / 8;
     enc_used := len (apply_shift u password ++ DELIMITER) |}.

Definition encode_too_large (img : Image) (u : bytes) (password : str)
  : encode_result :=
  {| enc_success := false;
     enc_message := TooLarge ((im_size img).1 * (im_size img).2 * 3 / 8
                              - len DELIMITER)
                             (len (apply_shift u password ++ DELIMITER));
     enc_capacity := (im_size img).1 * (im_size img).2 * 3 / 8;
     enc_used := len (apply_shift u password ++ DELIMITER) |}.

(** The number of positions where a list repeats its previous element.
    A byte shift keeps this number, UTF-8 encoding of Latin-1 text never
    raises it, and the delimiter contributes two. *)
Fixpoint adjacent_equal (l : list Z) : nat :=
  match l with
  | a :: (b :: _) as t =>
      ((if (a =? b)%Z then 1 else 0) + adjacent_equal t)%nat
  | _ => 0%nat
  end.

(** The [capacity_chars] entry of a successful capacity query. *)
Definition capacity_chars_of (r : capacity_result) : option Z :=
  match r with
  | CapacityOk _ _ _ c => Some c
  | CapacityFailed _ => None
  end.

(** ** Pictures for the examples *)

(** A carrier of 40 x 1 pixels of one colour, stored as [in.png]. *)
Definition carrier : Image := new_RGB (40, 1) (repeat (42, 58, 90) 40).

Definition disk : gmap string file := {[ "in.png"%string := Picture carrier ]}.

(** A carrier of 10 x 10 black pixels. *)
Definition square_carrier : Image := new_RGB (10, 10) (repeat (0, 0, 0) 100).

(** A picture whose least significant bits spell [AB<<END>>]. *)
Definition stego : Image :=
  new_RGB (24, 1)
    (match regroup (flat_map byte_bits ([65; 66] ++ DELIMITER)) with
     | inr pixels => pixels
     | inl _ => []
     end).

(** ** The command line front end ([cli.py]) *)

(** The parsed arguments of a subcommand; [-p] may be absent. *)
Record cli_args : Type := mkArgs {
  arg_image : string;
  arg_message : str;
  arg_output : string;
  arg_password : option str
}.

(** [args.password or ""] *)
Definition password_or_empty (password : option str) : str :=
  match password with
  | Some (c :: s) => c :: s
  | _ => []
  end.

(** The lines the commands print, with the values they interpolate. *)
Inductive printed : Type :=
| EncodingInto (image : string)
| DecodingFrom (image : string)
| Tick (message : status)
| Cross (message : status)
| CrossException (e : exn)
| OutputLine (output : string)
| UsedLine (used capacity : Z)
| SecretHeader
| SecretText (secret : option str)
| SecretFooter
| InfoFor (image : string)
| DimensionsLine (width height : Z)
| ModeLine (mode : string)
| CapacityLine (capacity_chars : Z).

(** What a command can touch: the files, standard output, standard error. *)
Record world : Type := mkWorld {
  w_fs : gmap string file;
  w_stdout : list printed;
  w_stderr : list printed
}.

Definition print (l : printed) (w : world) : world :=
  {| w_fs := w_fs w; w_stdout := w_stdout w ++ [l]; w_stderr := w_stderr w |}.

Definition eprint (l : printed) (w : world) : world :=
  {| w_fs := w_fs w; w_stdout := w_stdout w; w_stderr := w_stderr w ++ [l] |}.

(** Each command returns the world it leaves and its exit status:
    [None] when it returns, [Some 1] for [sys.exit(1)]. *)
Definition cmd_encode (args : cli_args) (w : world) : world * option Z :=
  let w := print (EncodingInto (arg_image args)) w in
  let '(result, fs) :=
    encode_message (w_fs w) (arg_image args) (arg_message args)
                   (arg_output args) (password_or_empty (arg_password args)) in
  let w := {| w_fs := fs; w_stdout := w_stdout w; w_stderr := w_stderr w |} in
  if enc_success result then
    let w := print (Tick (enc_message result)) w in
    let w := print (OutputLine (arg_output args)) w in
    let w := print (UsedLine (enc_used result) (enc_capacity result)) w in
    (w, None)
  else
    (eprint (Cross (enc_message result)) w, Some 1).



(** ** Further notions for the statements *)

(** All three channel values of a pixel are even. *)
Definition even_pixel (p : pixel) : bool :=
  let '(r, g, b) := p in Z.even r && Z.even g && Z.even b.

(** A code point in the surrogate range. *)
Definition is_surrogate (c : Z) : bool := (0xD800 <=? c) && (c <=? 0xDFFF).

(** A code point of the ASCII range. *)
Definition is_ascii (c : Z) : bool := (0 <=? c) && (c <? 128).

(** ** Further examples *)


(** ** Facts about the UTF-8 codec *)

Section Utf8.

Lemma utf8_encode_char_range c bs :
  utf8_encode_char c = inr bs -> is_bytes bs = true.
Proof.
  unfold utf8_encode_char, raise, ret.
  repeat case_match; intros [= <-]; try discriminate;
    cbn [is_bytes forallb]; unfold is_byte;
    repeat (apply andb_true_intro; split); try reflexivity; lia.
Qed.

Lemma is_bytes_app a b : is_bytes (a ++ b) = is_bytes a && is_bytes b.
Proof. apply forallb_app. Qed.

Lemma utf8_encode_range s bs :
  utf8_encode s = inr bs -> is_bytes bs = true.
Proof.
  revert bs. induction s as [|c s IH]; cbn; intros bs.
  - intros [= <-]. reflexivity.
  - destruct (utf8_encode_char c) as [|cb] eqn:Hc; cbn; [discriminate|].
    destruct (utf8_encode s) as [|rest]; cbn; [discriminate|].
    intros [= <-]. rewrite is_bytes_app, (utf8_encode_char_range _ _ Hc), IH; auto.
Qed.

(** Decoding what the encoder produced for one code point gives it back,
    whatever follows. *)
Lemma utf8_decode_encode_char c cb rest :
  utf8_encode_char c = inr cb ->
  utf8_decode (cb ++ rest) = bind (utf8_decode rest) (fun s => ret (c :: s)).
Proof.
  unfold utf8_encode_char, raise, ret.
  destruct (c <? 0) eqn:H0; [discriminate|].
  destruct (c <? 128) eqn:H1.
  { intros [= <-]. cbn [app utf8_decode].
    replace ((0 <=? c) && (c <? 128)) with true by (symmetry; apply andb_true_intro; lia).
    reflexivity. }
  destruct (c <? 2048) eqn:H2.
  { intros [= <-]. cbn [app utf8_decode].
    replace ((0 <=? 192 + c / 64) && (192 + c / 64 <? 128)) with false
      by (symmetry; apply andb_false_iff; lia).
    replace ((194 <=? 192 + c / 64) && (192 + c / 64 <=? 223)) with true
      by (symmetry; apply andb_true_intro; lia).
    unfold is_cont.
    replace ((128 <=? 128 + c mod 64) && (128 + c mod 64 <=? 191)) with true
      by (symmetry; apply andb_true_intro; lia).
    replace ((192 + c / 64 - 192) * 64 + (128 + c mod 64 - 128)) with c by lia.
    reflexivity. }
  destruct (c <? 65536) eqn:H3.
  { destruct ((55296 <=? c) && (c <=? 57343)) eqn:Hs; [discriminate|].
    intros [= <-]. cbn [app utf8_decode].
    replace ((0 <=? 224 + c / 4096) && (224 + c / 4096 <? 128)) with false
      by (symmetry; apply andb_false_iff; lia).
    replace ((194 <=? 224 + c / 4096) && (224 + c / 4096 <=? 223)) with false
      by (symmetry; apply andb_false_iff; lia).
    replace ((224 <=? 224 + c / 4096) && (224 + c / 4096 <=? 239)) with true
      by (symmetry; apply andb_true_intro; lia).
    unfold is_cont.
    replace ((224 + c / 4096 - 224) * 4096 + (128 + (c / 64) mod 64 - 128) * 64
             + (128 + c mod 64 - 128)) with c by lia.
    rewrite Hs.
    replace ((128 <=? 128 + (c / 64) mod 64) && (128 + (c / 64) mod 64 <=? 191))
      with true by (symmetry; apply andb_true_intro; lia).
    replace ((128 <=? 128 + c mod 64) && (128 + c mod 64 <=? 191)) with true
      by (symmetry; apply andb_true_intro; lia).
    replace (2048 <=? c) with true by (symmetry; lia).
    reflexivity. }
  destruct (c <? 1114112) eqn:H4; [|discriminate].
  intros [= <-]. cbn [app utf8_decode].
  replace ((0 <=? 240 + c / 262144) && (240 + c / 262144 <? 128)) with false
    by (symmetry; apply andb_false_iff; lia).
  replace ((194 <=? 240 + c / 262144) && (240 + c / 262144 <=? 223)) with false
    by (symmetry; apply andb_false_iff; lia).
  replace ((224 <=? 240 + c / 262144) && (240 + c / 262144 <=? 239)) with false
    by (symmetry; apply andb_false_iff; lia).
  replace ((240 <=? 240 + c / 262144) && (240 + c / 262144 <=? 244)) with true
    by (symmetry; apply andb_true_intro; lia).
  unfold is_cont.
  replace ((240 + c / 262144 - 240) * 262144 + (128 + (c / 4096) mod 64 - 128) * 4096
           + (128 + (c / 64) mod 64 - 128) * 64 + (128 + c mod 64 - 128))
    with c by lia.
  replace ((128 <=? 128 + (c / 4096) mod 64) && (128 + (c / 4096) mod 64 <=? 191))
    with true by (symmetry; apply andb_true_intro; lia).
  replace ((128 <=? 128 + (c / 64) mod 64) && (128 + (c / 64) mod 64 <=? 191))
    with true by (symmetry; apply andb_true_intro; lia).
  replace ((128 <=? 128 + c mod 64) && (128 + c mod 64 <=? 191)) with true
    by (symmetry; apply andb_true_intro; lia).
  replace (65536 <=? c) with true by (symmetry; lia).
  rewrite H4. reflexivity.
Qed.

(** [s.encode("utf-8").decode("utf-8") == s] whenever the encoding exists. *)
Lemma utf8_decode_encode s bs :
  utf8_encode s = inr bs -> utf8_decode bs = inr s.
Proof.
  revert bs. induction s as [|c s IH]; cbn [utf8_encode]; intros bs.
  - intros [= <-]. reflexivity.
  - destruct (utf8_encode_char c) as [|cb] eqn:Hc; cbn [bind]; [discriminate|].
    destruct (utf8_encode s) as [|rest] eqn:Hs; cbn [bind]; [discriminate|].
    intros [= <-]. rewrite (utf8_decode_encode_char _ _ _ Hc), (IH _ eq_refl).
    reflexivity.
Qed.

Ltac bool_hyps :=
  repeat match goal with
    | H : _ && _ = true |- _ => apply andb_prop in H; destruct H
    | H : negb _ = true |- _ => apply negb_true_iff in H
    end.

Lemma utf8_encode_char_2 b0 b1 :
  (0xC2 <=? b0) && (b0 <=? 0xDF) = true -> is_cont b1 = true ->
  utf8_encode_char ((b0 - 0xC0) * 64 + (b1 - 0x80)) = inr [b0; b1].
Proof.
  unfold is_cont, utf8_encode_char, ret. intros; bool_hyps.
  set (c := (b0 - 192) * 64 + (b1 - 128)).
  assert (128 <= c < 2048) by lia.
  replace (c <? 0) with false by (symmetry; lia).
  replace (c <? 128) with false by (symmetry; lia).
  replace (c <? 2048) with true by (symmetry; lia).
  do 2 f_equal; [|f_equal]; lia.
Qed.

Lemma utf8_encode_char_3 b0 b1 b2 :
  let c := (b0 - 0xE0) * 4096 + (b1 - 0x80) * 64 + (b2 - 0x80) in
  (0xE0 <=? b0) && (b0 <=? 0xEF) = true ->
  is_cont b1 && is_cont b2 && (0x800 <=? c)
    && negb ((0xD800 <=? c) && (c <=? 0xDFFF)) = true ->
  utf8_encode_char c = inr [b0; b1; b2].
Proof.
  intros c. unfold is_cont, utf8_encode_char, ret. intros H0 H; bool_hyps.
  assert (2048 <= c < 65536) by lia.
  replace (c <? 0) with false by (symmetry; lia).
  replace (c <? 128) with false by (symmetry; lia).
  replace (c <? 2048) with false by (symmetry; lia).
  replace (c <? 65536) with true by (symmetry; lia).
  match goal with H : _ = false |- _ => rewrite H end.
  do 2 f_equal; [|f_equal; [|f_equal]]; lia.
Qed.

Lemma utf8_encode_char_4 b0 b1 b2 b3 :
  let c := (b0 - 0xF0) * 262144 + (b1 - 0x80) * 4096
           + (b2 - 0x80) * 64 + (b3 - 0x80) in
  (0xF0 <=? b0) && (b0 <=? 0xF4) = true ->
  is_cont b1 && is_cont b2 && is_cont b3
    && (0x10000 <=? c) && (c <? 0x110000) = true ->
  utf8_encode_char c = inr [b0; b1; b2; b3].
Proof.
  intros c. unfold is_cont, utf8_encode_char, ret. intros H0 H; bool_hyps.
  assert (65536 <= c < 1114112) by lia.
  replace (c <? 0) with false by (symmetry; lia).
  replace (c <? 128) with false by (symmetry; lia).
  replace (c <? 2048) with false by (symmetry; lia).
  replace (c <? 65536) with false by (symmetry; lia).
  replace (c <? 1114112) with true by (symmetry; lia).
  do 2 f_equal; [|f_equal; [|f_equal; [|f_equal]]]; lia.
Qed.

(** The decoder accepts only what the encoder produces:
    [bs.decode("utf-8").encode("utf-8") == bs]. *)
Lemma utf8_encode_decode_bounded (n : nat) : forall bs s,
  (length bs <= n)%nat -> utf8_decode bs = inr s -> utf8_encode s = inr bs.
Proof.
  induction n as [|n IH]; intros bs s Hn.
  { destruct bs; [|cbn in Hn; lia]. intros [= <-]. reflexivity. }
  destruct bs as [|b0 t0]; [intros [= <-]; reflexivity|].
  cbn [utf8_decode]. cbn [length] in Hn.
  destruct ((0 <=? b0) && (b0 <? 128)) eqn:G1.
  { destruct (utf8_decode t0) as [|s0] eqn:D; cbn [bind ret]; [discriminate|].
    intros [= <-]. cbn [utf8_encode]. rewrite (IH t0 s0) by (auto; lia).
    unfold utf8_encode_char. bool_hyps.
    replace (b0 <? 0) with false by (symmetry; lia).
    replace (b0 <? 128) with true by (symmetry; lia). reflexivity. }
  destruct ((194 <=? b0) && (b0 <=? 223)) eqn:G2.
  { destruct t0 as [|b1 t1]; [discriminate|].
    destruct (is_cont b1) eqn:C1; [|discriminate].
    destruct (utf8_decode t1) as [|s0] eqn:D; cbn [bind ret]; [discriminate|].
    intros [= <-]. cbn [utf8_encode]. cbn [length] in Hn.
    rewrite (IH t1 s0) by (auto; lia).
    rewrite utf8_encode_char_2 by assumption. reflexivity. }
  destruct ((224 <=? b0) && (b0 <=? 239)) eqn:G3.
  { destruct t0 as [|b1 [|b2 t2]]; try discriminate.
    match goal with |- (if ?g then _ else _) = _ -> _ => destruct g eqn:C end;
      [|discriminate].
    destruct (utf8_decode t2) as [|s0] eqn:D; cbn [bind ret]; [discriminate|].
    intros [= <-]. cbn [utf8_encode]. cbn [length] in Hn.
    rewrite (IH t2 s0) by (auto; lia).
    rewrite utf8_encode_char_3 by assumption. reflexivity. }
  destruct ((240 <=? b0) && (b0 <=? 244)) eqn:G4; [|discriminate].
  destruct t0 as [|b1 [|b2 [|b3 t3]]]; try discriminate.
  match goal with |- (if ?g then _ else _) = _ -> _ => destruct g eqn:C end;
    [|discriminate].
  destruct (utf8_decode t3) as [|s0] eqn:D; cbn [bind ret]; [discriminate|].
  intros [= <-]. cbn [utf8_encode]. cbn [length] in Hn.
  rewrite (IH t3 s0) by (auto; lia).
  rewrite utf8_encode_char_4 by assumption. reflexivity.
Qed.

Lemma utf8_encode_decode bs s :
  utf8_decode bs = inr s -> utf8_encode s = inr bs.
Proof. apply (utf8_encode_decode_bounded (length bs)). lia. Qed.

End Utf8.

(** ** Bits and bytes *)

Section Bits.

Lemma is_bit_cases b : is_bit b = true -> b = 0 \/ b = 1.
Proof. unfold is_bit. intros H%orb_prop. lia. Qed.

Lemma lsb_is_bit p : is_bit (lsb p) = true.
Proof.
  unfold lsb, is_bit. change (Z.land p 1) with (Z.land p (Z.ones 1)).
  rewrite Z.land_ones by lia. change (2 ^ 1) with 2.
  apply orb_true_iff. lia.
Qed.

Lemma lsb_set_lsb v bit : is_bit bit = true -> lsb (set_lsb v bit) = bit.
Proof.
  intros Hb. unfold lsb, set_lsb.
  rewrite Z.land_lor_distr_l, <- Z.land_assoc.
  change (Z.land (Z.lnot 1) 1) with 0. rewrite Z.land_0_r, Z.lor_0_l.
  destruct (is_bit_cases _ Hb) as [-> | ->]; reflexivity.
Qed.

(** Everything above bit 0 survives the embedding. *)
Lemma shiftr_set_lsb v bit :
  is_bit bit = true -> Z.shiftr (set_lsb v bit) 1 = Z.shiftr v 1.
Proof.
  intros Hb. unfold set_lsb.
  rewrite Z.shiftr_lor, Z.shiftr_land.
  change (Z.shiftr (Z.lnot 1) 1) with (-1). rewrite Z.land_m1_r.
  destruct (is_bit_cases _ Hb) as [-> | ->]; cbn; apply Z.lor_0_r.
Qed.

Lemma set_lsb_is_byte v bit :
  is_byte v = true -> is_bit bit = true -> is_byte (set_lsb v bit) = true.
Proof.
  intros Hv Hb. unfold is_byte in *. apply andb_prop in Hv as [H0 H1].
  assert (Hs : Z.shiftr (set_lsb v bit) 1 = Z.shiftr v 1) by (apply shiftr_set_lsb; auto).
  assert (Hl : lsb (set_lsb v bit) = bit) by (apply lsb_set_lsb; auto).
  unfold lsb in Hl. change 1 with (Z.ones 1) in Hl at 1.
  rewrite Z.land_ones in Hl by lia. rewrite !Z.shiftr_div_pow2 in Hs by lia.
  change (2 ^ 1) with 2 in *.
  destruct (is_bit_cases _ Hb); apply andb_true_intro; lia.
Qed.

Lemma byte_bits_length b : length (byte_bits b) = 8%nat.
Proof. reflexivity. Qed.

Lemma byte_bits_is_bit b : forallb is_bit (byte_bits b) = true.
Proof.
  unfold byte_bits. cbn [map forallb].
  repeat (apply andb_true_intro; split); try reflexivity; apply lsb_is_bit.
Qed.

(** The eight bits of a byte, most significant first, rebuild the byte;
    checked on each of the 256 bytes. *)
Lemma bits_byte_byte_bits b : is_byte b = true -> bits_byte (byte_bits b) = b.
Proof.
  intros Hb. unfold is_byte in Hb. apply andb_prop in Hb as [H0 H1].
  assert (Hall : forallb (fun n => bits_byte (byte_bits (Z.of_nat n)) =? Z.of_nat n)
                   (seq 0 256) = true) by (vm_compute; reflexivity).
  rewrite forallb_forall in Hall.
  specialize (Hall (Z.to_nat b)). rewrite Z2Nat.id in Hall by lia.
  apply Z.eqb_eq, Hall, in_seq. lia.
Qed.

Lemma flat_map_byte_bits_length bs :
  length (flat_map byte_bits bs) = (8 * length bs)%nat.
Proof.
  induction bs as [|b bs IH]; [reflexivity|].
  cbn [flat_map]. rewrite length_app, IH, byte_bits_length. cbn [length]. lia.
Qed.

Lemma flat_map_byte_bits_is_bit bs :
  forallb is_bit (flat_map byte_bits bs) = true.
Proof.
  induction bs as [|b bs IH]; [reflexivity|].
  cbn [flat_map]. rewrite forallb_app, byte_bits_is_bit, IH. reflexivity.
Qed.

End Bits.

(** ** The embedding loop and the regrouping of channels *)

Section Embed.

Lemma flatten_length pixels : length (flatten pixels) = (3 * length pixels)%nat.
Proof.
  induction pixels as [|[[r g] b] ps IH]; [reflexivity|].
  unfold flatten in *. cbn [flat_map]. rewrite length_app, IH. cbn [length]. lia.
Qed.

(** The loop as a whole: with [done] already visited, it rewrites the
    least significant bit of the next [length bits] values and leaves the
    rest; it raises exactly when the values run out. *)
Lemma embed_from bits : forall done todo,
  embed (done ++ todo) (zip (seq (length done) (length bits)) bits) =
  if bool_decide (length bits <= length todo)%nat
  then ret (done ++ zip_with set_lsb todo bits ++ drop (length bits) todo)
  else raise IndexError.
Proof.
  induction bits as [|bit bits IH]; intros done todo.
  - cbn [length seq zip zip_with embed drop].
    rewrite bool_decide_eq_true_2 by lia. rewrite zip_with_nil_r. reflexivity.
  - cbn [length seq zip zip_with embed].
    rewrite lookup_app_r by lia. rewrite Nat.sub_diag.
    destruct todo as [|v todo].
    + cbn. rewrite bool_decide_eq_false_2 by (cbn; lia). reflexivity.
    + cbn [lookup list_lookup length].
      rewrite insert_app_r_alt by lia. rewrite Nat.sub_diag. cbn [insert list_insert].
      fold (set_lsb v bit).
      replace (done ++ set_lsb v bit :: todo) with ((done ++ [set_lsb v bit]) ++ todo)
        by (rewrite <- app_assoc; reflexivity).
      replace (S (length done)) with (length (done ++ [set_lsb v bit]))
        by (rewrite length_app; cbn; lia).
      rewrite IH. cbn [drop zip_with].
      destruct (bool_decide (length bits <= length todo)%nat) eqn:E.
      * rewrite bool_decide_eq_true_2
          by (apply bool_decide_eq_true in E; lia).
        rewrite <- app_assoc. reflexivity.
      * rewrite bool_decide_eq_false_2
          by (apply bool_decide_eq_false in E; lia).
        reflexivity.
Qed.

Lemma embed_enumerate flat bits :
  embed flat (enumerate bits) =
  if bool_decide (length bits <= length flat)%nat
  then ret (zip_with set_lsb flat bits ++ drop (length bits) flat)
  else raise IndexError.
Proof. apply (embed_from bits [] flat). Qed.

Lemma regroup_flatten flat : forall pixels,
  regroup flat = inr pixels -> flatten pixels = flat.
Proof.
  intros pixels. revert flat.
  induction pixels as [|p ps IH]; intros [|r [|g [|b rest]]]; cbn [regroup];
    try discriminate; try reflexivity.
  - destruct (regroup rest); discriminate.
  - destruct (regroup rest) as [|ps'] eqn:E; cbn [bind ret]; [discriminate|].
    intros [= <- <-]. cbn [flatten flat_map app]. do 3 f_equal. apply IH, E.
Qed.

Lemma regroup_total (k : nat) : forall flat,
  length flat = (3 * k)%nat -> exists pixels, regroup flat = inr pixels.
Proof.
  induction k as [|k IH]; intros flat Hl.
  - destruct flat; [|cbn in Hl; lia]. exists []. reflexivity.
  - destruct flat as [|r [|g [|b rest]]]; cbn [length] in Hl; try lia.
    destruct (IH rest) as [ps Hps]; [lia|].
    exists ((r, g, b) :: ps). cbn [regroup]. rewrite Hps. reflexivity.
Qed.

Lemma map_lsb_embedded flat bits :
  forallb is_bit bits = true -> (length bits <= length flat)%nat ->
  map lsb (zip_with set_lsb flat bits ++ drop (length bits) flat)
  = bits ++ map lsb (drop (length bits) flat).
Proof.
  intros Hb Hl. rewrite map_app. f_equal.
  revert flat Hl. induction bits as [|bit bits IH]; intros flat Hl.
  - destruct flat; reflexivity.
  - destruct flat as [|v flat]; cbn [length] in Hl; [lia|].
    cbn [forallb] in Hb. apply andb_prop in Hb as [Hb1 Hb2].
    cbn [zip_with map]. rewrite lsb_set_lsb by assumption.
    f_equal. apply IH; [assumption | lia].
Qed.

End Embed.

(** ** The scanning loop of the decoder *)

Section Scan.

Lemma utf8_encode_DELIMITER : utf8_encode DELIMITER = inr DELIMITER.
Proof. reflexivity. Qed.

Lemma DELIMITER_length : length DELIMITER = 7%nat.
Proof. reflexivity. Qed.

Lemma bytes_of_bits_app bs tail :
  is_bytes bs = true ->
  bytes_of_bits (flat_map byte_bits bs ++ tail) = bs ++ bytes_of_bits tail.
Proof.
  induction bs as [|b bs IH]; [reflexivity|].
  cbn [is_bytes forallb]. intros [Hb Hbs]%andb_prop.
  cbn [flat_map]. rewrite <- app_assoc.
  change (byte_bits b ++ flat_map byte_bits bs ++ tail) with
    (Z.land (Z.shiftr b 7) 1 :: Z.land (Z.shiftr b 6) 1 :: Z.land (Z.shiftr b 5) 1
     :: Z.land (Z.shiftr b 4) 1 :: Z.land (Z.shiftr b 3) 1 :: Z.land (Z.shiftr b 2) 1
     :: Z.land (Z.shiftr b 1) 1 :: Z.land (Z.shiftr b 0) 1
     :: (flat_map byte_bits bs ++ tail)).
  cbn [bytes_of_bits app]. f_equal; [|apply IH, Hbs].
  apply (bits_byte_byte_bits b Hb).
Qed.

(** The bit loop with a partly filled buffer is the byte loop on the
    bytes that the buffer and the remaining bits spell. *)
Lemma scan_scan_bytes d raw : forall buffer payload_bytes,
  (length buffer < 8)%nat ->
  scan d raw buffer payload_bytes
  = scan_bytes d (bytes_of_bits (buffer ++ raw)) payload_bytes.
Proof.
  induction raw as [|bit raw IH]; intros buffer pb Hlen.
  - rewrite app_nil_r. cbn [scan].
    do 8 (destruct buffer as [|? buffer]; [reflexivity|]). cbn in Hlen. lia.
  - cbn [scan]. destruct (decide (length (buffer ++ [bit]) = 8%nat)) as [E|E].
    + rewrite length_app in E. cbn [length] in E.
      do 7 (destruct buffer as [|? buffer]; [cbn in E; lia|]).
      destruct buffer; [|cbn in E; lia].
      cbn [app bytes_of_bits scan_bytes].
      rewrite (IH [] _) by (cbn; lia). reflexivity.
    + rewrite length_app in E. cbn [length] in E.
      rewrite (IH (buffer ++ [bit])) by (rewrite length_app; cbn; lia).
      rewrite <- app_assoc. reflexivity.
Qed.

Lemma delimiter_at_app_l a b j :
  (j + 7 <= length a)%nat -> delimiter_at (a ++ b) j <-> delimiter_at a j.
Proof.
  intros Hj. unfold delimiter_at. rewrite DELIMITER_length.
  rewrite drop_app_le by lia. rewrite take_app_le; [reflexivity|].
  rewrite length_drop. lia.
Qed.

Lemma delimiter_at_short bs j :
  (length bs < j + 7)%nat -> ~ delimiter_at bs j.
Proof.
  intros Hj H. apply (f_equal length) in H.
  rewrite length_take, length_drop, DELIMITER_length in H. lia.
Qed.

(** The test made after each completed byte. *)
Lemma delimiter_test acc :
  bool_decide (length DELIMITER <= length acc)%nat
  && bool_decide (last_n (length DELIMITER) acc = DELIMITER) = true
  <-> (7 <= length acc)%nat /\ delimiter_at acc (length acc - 7).
Proof.
  rewrite andb_true_iff, !bool_decide_eq_true, DELIMITER_length.
  unfold delimiter_at, last_n. rewrite DELIMITER_length.
  split; intros [H1 H2]; (split; [assumption|]).
  - rewrite take_ge; [assumption|]. rewrite length_drop. lia.
  - rewrite take_ge in H2; [assumption|]. rewrite length_drop. lia.
Qed.

(** The byte loop stops at the first occurrence of the delimiter and
    yields the bytes before it; it yields nothing when there is none. *)
Lemma scan_bytes_from bs : forall acc,
  (forall j, (j + 7 <= length acc)%nat -> ~ delimiter_at (acc ++ bs) j) ->
  (exists n, first_delimiter (acc ++ bs) n
             /\ scan_bytes DELIMITER bs acc = Some (take n (acc ++ bs)))
  \/ ((forall n, ~ delimiter_at (acc ++ bs) n)
      /\ scan_bytes DELIMITER bs acc = None).
Proof.
  induction bs as [|b bs IH]; intros acc Hacc.
  - right. split; [|reflexivity]. intros n.
    destruct (le_lt_dec (n + 7) (length acc)) as [Hn|Hn]; [auto|].
    rewrite app_nil_r. apply delimiter_at_short. lia.
  - cbn [scan_bytes].
    replace (acc ++ b :: bs) with ((acc ++ [b]) ++ bs) in *
      by (rewrite <- app_assoc; reflexivity).
    set (acc' := acc ++ [b]) in *.
    assert (Hlen : length acc' = S (length acc))
      by (unfold acc'; rewrite length_app; cbn; lia).
    match goal with |- context [if ?g then _ else _] => destruct g eqn:G end.
    + apply delimiter_test in G as [G1 G2].
      left. exists (length acc' - 7)%nat. split; [split|].
      * apply delimiter_at_app_l; [lia | assumption].
      * intros j Hj. apply Hacc. lia.
      * unfold but_last_n. rewrite DELIMITER_length.
        rewrite take_app_le by lia. reflexivity.
    + apply IH. intros j Hj.
      destruct (le_lt_dec (j + 7) (length acc)) as [Hn|Hn]; [auto|].
      assert (j = (length acc' - 7)%nat) as -> by lia.
      intros H. apply delimiter_at_app_l in H; [|lia].
      assert (Ht : (7 <= length acc')%nat /\ delimiter_at acc' (length acc' - 7))
        by (split; [lia | assumption]).
      apply delimiter_test in Ht. congruence.
Qed.

Lemma first_delimiter_unique bs n n' :
  first_delimiter bs n -> first_delimiter bs n' -> n = n'.
Proof.
  intros [H1 M1] [H2 M2].
  destruct (lt_eq_lt_dec n n') as [[L|E]|L]; [|assumption|].
  - exfalso. apply (M2 n L H1).
  - exfalso. apply (M1 n' L H2).
Qed.

(** What [scan] returns on a bit stream, in terms of the bytes it spells. *)
Lemma scan_found raw n :
  first_delimiter (bytes_of_bits raw) n ->
  scan DELIMITER raw [] [] = Some (take n (bytes_of_bits raw)).
Proof.
  intros Hn. rewrite scan_scan_bytes by (cbn; lia). cbn [app].
  destruct (scan_bytes_from (bytes_of_bits raw) []) as [(n' & Hn' & ->)|[Hno _]].
  - intros j Hj. cbn in Hj. lia.
  - cbn [app] in Hn'. rewrite (first_delimiter_unique _ _ _ Hn Hn'). reflexivity.
  - exfalso. apply (Hno n), Hn.
Qed.

Lemma scan_not_found raw :
  (forall n, ~ delimiter_at (bytes_of_bits raw) n) ->
  scan DELIMITER raw [] [] = None.
Proof.
  intros Hno. rewrite scan_scan_bytes by (cbn; lia). cbn [app].
  destruct (scan_bytes_from (bytes_of_bits raw) []) as [(n' & [Hn' _] & _)|[_ ->]].
  - intros j Hj. cbn in Hj. lia.
  - exfalso. apply (Hno n'), Hn'.
  - reflexivity.
Qed.

Lemma scan_inv raw payload :
  scan DELIMITER raw [] [] = Some payload ->
  exists n, first_delimiter (bytes_of_bits raw) n
            /\ payload = take n (bytes_of_bits raw).
Proof.
  rewrite scan_scan_bytes by (cbn; lia). cbn [app].
  destruct (scan_bytes_from (bytes_of_bits raw) []) as [(n & Hn & ->)|[_ ->]].
  - intros j Hj. cbn in Hj. lia.
  - intros [= <-]. exists n. split; [exact Hn | reflexivity].
  - discriminate.
Qed.

Lemma scan_None_inv raw :
  scan DELIMITER raw [] [] = None ->
  forall n, ~ delimiter_at (bytes_of_bits raw) n.
Proof.
  rewrite scan_scan_bytes by (cbn; lia). cbn [app].
  destruct (scan_bytes_from (bytes_of_bits raw) []) as [(n & Hn & ->)|[Hno _]].
  - intros j Hj. cbn in Hj. lia.
  - discriminate.
  - intros _. exact Hno.
Qed.

End Scan.

(** ** Where the delimiter sits in an embedded payload *)

Section Delimiter.

(** No proper suffix of the delimiter is a prefix of it, so an occurrence
    cannot straddle the end of the payload. *)
Lemma delimiter_no_overlap s t j :
  (j < length s)%nat -> (length s < j + 7)%nat ->
  ~ delimiter_at (s ++ DELIMITER ++ t) j.
Proof.
  intros H1 H2. unfold delimiter_at. rewrite DELIMITER_length.
  rewrite drop_app_le by lia. rewrite take_app.
  assert (Hx : length (drop j s) = (length s - j)%nat) by apply length_drop.
  rewrite (take_ge (drop j s)) by lia.
  rewrite take_app_le by (rewrite DELIMITER_length; lia).
  rewrite Hx. remember (drop j s) as x eqn:Ex. clear Ex.
  remember (length s - j)%nat as k eqn:Ek.
  assert (Hk : (1 <= k <= 6)%nat) by lia. clear Ek H1 H2. intros H.
  do 7 (destruct x as [|? x];
        [cbn in Hx; subst k; first [lia | vm_compute in H; congruence]|]).
  cbn in Hx. lia.
Qed.

Lemma delimiter_at_end s t : delimiter_at (s ++ DELIMITER ++ t) (length s).
Proof.
  unfold delimiter_at. rewrite drop_app_length.
  apply take_app_length.
Qed.

(** When the payload holds no delimiter, the appended one is the first. *)
Lemma first_delimiter_payload s t :
  (forall j, ~ delimiter_at s j) ->
  first_delimiter (s ++ DELIMITER ++ t) (length s).
Proof.
  intros Hs. split; [apply delimiter_at_end|].
  intros j Hj H.
  destruct (le_lt_dec (j + 7) (length s)) as [L|L].
  - apply delimiter_at_app_l in H; [|assumption]. exact (Hs j H).
  - exact (delimiter_no_overlap s t j Hj L H).
Qed.

(** In any case the first delimiter is the appended one or lies wholly
    inside the payload. *)
Lemma first_delimiter_bound s t n :
  first_delimiter (s ++ DELIMITER ++ t) n ->
  n = length s \/ ((n + 7 <= length s)%nat /\ delimiter_at s n).
Proof.
  intros [Hn Hmin].
  destruct (lt_eq_lt_dec n (length s)) as [[L|E]|L].
  - right. destruct (le_lt_dec (n + 7) (length s)) as [L'|L'].
    + split; [assumption|]. apply (delimiter_at_app_l s (DELIMITER ++ t) n L'), Hn.
    + exfalso. exact (delimiter_no_overlap s t n L L' Hn).
  - left. assumption.
  - exfalso. exact (Hmin _ L (delimiter_at_end s t)).
Qed.

End Delimiter.

(** ** The password transform *)

Section Shift.

Lemma shift_of_range p : 0 <= shift_of p < 256.
Proof. unfold shift_of. lia. Qed.

Lemma apply_shift_length b p : length (apply_shift b p) = length b.
Proof. destruct p; [reflexivity|]. apply length_map. Qed.

Lemma reverse_shift_length b p : length (reverse_shift b p) = length b.
Proof. destruct p; [reflexivity|]. apply length_map. Qed.

Lemma is_bytes_Forall bs : is_bytes bs = true <-> Forall (fun b => 0 <= b < 256) bs.
Proof.
  unfold is_bytes. rewrite forallb_forall, Forall_forall.
  split; intros H b Hb.
  - apply list_elem_of_In, H in Hb. unfold is_byte in Hb.
    apply andb_prop in Hb. lia.
  - apply list_elem_of_In, H in Hb. unfold is_byte.
    apply andb_true_intro. lia.
Qed.

Lemma is_bytes_map_mod (f : Z -> Z) (bs : list Z) : is_bytes (map (fun b => f b mod 256) bs) = true.
Proof.
  induction bs as [|b bs IH]; [reflexivity|].
  cbn [map is_bytes forallb]. apply andb_true_intro. split; [|exact IH].
  unfold is_byte. apply andb_true_intro. lia.
Qed.

Lemma apply_shift_is_bytes b p :
  is_bytes b = true -> is_bytes (apply_shift b p) = true.
Proof. destruct p; [auto|]. intros _. apply is_bytes_map_mod. Qed.

(** The two transforms, whatever the password, are the shifts by
    [shift_of] on bytes: an empty password has [shift_of] 0. *)
Lemma apply_shift_eq b p :
  is_bytes b = true ->
  apply_shift b p = map (fun x => (x + shift_of p) mod 256) b.
Proof.
  intros Hb%is_bytes_Forall. destruct p as [|c p]; [|reflexivity].
  cbn [apply_shift]. change (shift_of []) with 0.
  induction Hb as [|x b Hx Hb IH]; [reflexivity|].
  cbn [map]. rewrite <- IH. f_equal. lia.
Qed.

Lemma reverse_shift_eq b p :
  is_bytes b = true ->
  reverse_shift b p = map (fun x => (x - shift_of p) mod 256) b.
Proof.
  intros Hb%is_bytes_Forall. destruct p as [|c p]; [|reflexivity].
  cbn [reverse_shift]. change (shift_of []) with 0.
  induction Hb as [|x b Hx Hb IH]; [reflexivity|].
  cbn [map]. rewrite <- IH. f_equal. lia.
Qed.

(** Undoing with a password of the same checksum gives the bytes back. *)
Lemma reverse_apply_shift b p1 p2 :
  is_bytes b = true -> shift_of p1 = shift_of p2 ->
  reverse_shift (apply_shift b p1) p2 = b.
Proof.
  intros Hb Hs.
  rewrite reverse_shift_eq by (apply apply_shift_is_bytes, Hb).
  rewrite apply_shift_eq by assumption. rewrite Hs.
  pose proof (shift_of_range p2) as Hr.
  apply is_bytes_Forall in Hb.
  induction Hb as [|x b Hx Hb IH]; [reflexivity|].
  cbn [map]. rewrite IH. f_equal. lia.
Qed.

End Shift.

(** ** The entry points, step by step *)

Section Steps.

Variable fs : gmap string file.

Lemma bytes_of_bits_is_bytes bits :
  forallb is_bit bits = true -> is_bytes (bytes_of_bits bits) = true.
Proof.
  remember (length bits) as k eqn:Hk. revert bits Hk.
  induction k as [k IH] using lt_wf_ind. intros bits Hk Hb.
  do 8 (destruct bits as [|? bits]; [reflexivity|]).
  cbn [bytes_of_bits is_bytes forallb]. cbn [forallb] in Hb.
  repeat match type of Hb with _ && _ = true => apply andb_prop in Hb as [? Hb] end.
  apply andb_true_intro. split.
  - repeat match goal with
      | H : is_bit ?b = true |- _ => destruct (is_bit_cases _ H) as [-> | ->]; clear H
      end; reflexivity.
  - apply (IH (length bits)); [cbn in Hk; lia | reflexivity | assumption].
Qed.

Lemma map_lsb_is_bit l : forallb is_bit (map lsb l) = true.
Proof.
  induction l as [|x l IH]; [reflexivity|].
  cbn [map forallb]. rewrite lsb_is_bit, IH. reflexivity.
Qed.

Lemma stream_is_bytes img : is_bytes (stream img) = true.
Proof. apply bytes_of_bits_is_bytes, map_lsb_is_bit. Qed.

Lemma payload_bits_length u p :
  length (payload_bits u p) = (8 * (length u + 7))%nat.
Proof.
  unfold payload_bits. rewrite flat_map_byte_bits_length, length_app,
    apply_shift_length, DELIMITER_length. reflexivity.
Qed.

(** *** [encode_message] *)

Lemma encode_try_inv image_path message password r new_img :
  encode_try fs image_path message password = inr (r, Some new_img) ->
  exists img u new_pixels,
    PIL.open fs image_path = inr img
    /\ utf8_encode message = inr u
    /\ len (payload_bits u password) <= (im_size img).1 * (im_size img).2 * 3
    /\ (length (payload_bits u password) <= length (flatten (im_rgb img)))%nat
    /\ flatten new_pixels
       = zip_with set_lsb (flatten (im_rgb img)) (payload_bits u password)
         ++ drop (length (payload_bits u password)) (flatten (im_rgb img))
    /\ new_img = new_RGB (im_size img) new_pixels
    /\ r = encode_ok img u password.
Proof.
  unfold encode_try.
  destruct (PIL.open fs image_path) as [|img] eqn:Ho; cbn [bind]; [discriminate|].
  destruct (im_size img) as [w h] eqn:Hsz.
  destruct (utf8_encode message) as [|u] eqn:Hu; cbn [bind]; [discriminate|].
  rewrite utf8_encode_DELIMITER. cbn [bind].
  fold (payload_bits u password).
  destruct (len (payload_bits u password) >? w * h * 3) eqn:Hcap; [discriminate|].
  rewrite embed_enumerate.
  destruct (bool_decide _) eqn:Hfit; cbn [bind ret raise]; [|discriminate].
  destruct (regroup _) as [|new_pixels] eqn:Hre; cbn [bind ret]; [discriminate|].
  intros [= <- <-]. exists img, u, new_pixels.
  rewrite Hsz. cbn [fst snd].
  repeat split; try reflexivity.
  - lia.
  - apply bool_decide_eq_true in Hfit. exact Hfit.
  - apply regroup_flatten, Hre.
  - unfold encode_ok. rewrite Hsz. reflexivity.
Qed.

Lemma encode_try_fits image_path message password img u :
  PIL.open fs image_path = inr img ->
  utf8_encode message = inr u ->
  wf_image img = true ->
  len (payload_bits u password) <= (im_size img).1 * (im_size img).2 * 3 ->
  exists new_pixels,
    encode_try fs image_path message password
    = inr (encode_ok img u password, Some (new_RGB (im_size img) new_pixels))
    /\ flatten new_pixels
       = zip_with set_lsb (flatten (im_rgb img)) (payload_bits u password)
         ++ drop (length (payload_bits u password)) (flatten (im_rgb img))
    /\ (length (payload_bits u password) <= length (flatten (im_rgb img)))%nat.
Proof.
  intros Ho Hu Hwf Hcap. unfold encode_try, encode_ok. rewrite Ho. cbn [bind].
  unfold wf_image in Hwf.
  destruct (im_size img) as [w h] eqn:Hsz. cbn [fst snd] in *.
  rewrite Hu. cbn [bind]. rewrite utf8_encode_DELIMITER. cbn [bind].
  fold (payload_bits u password).
  repeat match type of Hwf with _ && _ = true => apply andb_prop in Hwf as [Hwf ?] end.
  assert (Hlen : (length (payload_bits u password) <= length (flatten (im_rgb img)))%nat).
  { rewrite flatten_length. unfold len in *. lia. }
  replace (len (payload_bits u password) >? w * h * 3) with false by (symmetry; lia).
  rewrite embed_enumerate, bool_decide_eq_true_2 by exact Hlen. cbn [bind ret].
  destruct (regroup_total (length (im_rgb img))
              (zip_with set_lsb (flatten (im_rgb img)) (payload_bits u password)
               ++ drop (length (payload_bits u password)) (flatten (im_rgb img))))
    as [new_pixels Hre].
  { rewrite length_app, length_zip_with, length_drop, flatten_length.
    rewrite flatten_length in Hlen. lia. }
  exists new_pixels. rewrite Hre. cbn [bind].
  split; [reflexivity|]. split; [|exact Hlen]. apply regroup_flatten, Hre.
Qed.

Lemma encode_try_too_large image_path message password img u :
  PIL.open fs image_path = inr img ->
  utf8_encode message = inr u ->
  len (payload_bits u password) > (im_size img).1 * (im_size img).2 * 3 ->
  encode_try fs image_path message password
  = inr (encode_too_large img u password, None).
Proof.
  intros Ho Hu Hcap. unfold encode_try, encode_too_large. rewrite Ho. cbn [bind].
  destruct (im_size img) as [w h] eqn:Hsz. cbn [fst snd] in *.
  rewrite Hu. cbn [bind]. rewrite utf8_encode_DELIMITER. cbn [bind].
  fold (payload_bits u password).
  replace (len (payload_bits u password) >? w * h * 3) with true by (symmetry; lia).
  reflexivity.
Qed.

(** The byte stream of a picture that carries an embedded payload. *)
Lemma stream_embedded sz new_pixels flat u password :
  is_bytes u = true ->
  (length (payload_bits u password) <= length flat)%nat ->
  flatten new_pixels
  = zip_with set_lsb flat (payload_bits u password)
    ++ drop (length (payload_bits u password)) flat ->
  stream (new_RGB sz new_pixels)
  = apply_shift u password
    ++ DELIMITER
    ++ bytes_of_bits (map lsb (drop (length (payload_bits u password)) flat)).
Proof.
  intros Hu Hlen Hflat. unfold stream. cbn [new_RGB im_rgb]. rewrite Hflat.
  rewrite map_lsb_embedded;
    [|apply flat_map_byte_bits_is_bit | exact Hlen].
  unfold payload_bits at 1. rewrite bytes_of_bits_app.
  - rewrite <- app_assoc. reflexivity.
  - rewrite is_bytes_app, apply_shift_is_bytes by exact Hu. reflexivity.
Qed.

(** *** [decode_message] *)

Lemma decode_message_found image_path password img n :
  PIL.open fs image_path = inr img ->
  first_delimiter (stream img) n ->
  decode_message fs image_path password
  = {| dec_success := true; dec_message := Extracted;
       dec_secret :=
         Some (decode_text (reverse_shift (take n (stream img)) password)) |}.
Proof.
  intros Ho Hn. unfold decode_message, decode_try. rewrite Ho. cbn [bind].
  rewrite utf8_encode_DELIMITER. cbn [bind].
  change (map (fun p => Z.land p 1) (flatten (im_rgb img)))
    with (map lsb (flatten (im_rgb img))).
  rewrite (scan_found _ n Hn). reflexivity.
Qed.

Lemma decode_message_not_found image_path password img :
  PIL.open fs image_path = inr img ->
  (forall n, ~ delimiter_at (stream img) n) ->
  decode_message fs image_path password
  = {| dec_success := false; dec_message := NoHiddenMessage;
       dec_secret := None |}.
Proof.
  intros Ho Hn. unfold decode_message, decode_try. rewrite Ho. cbn [bind].
  rewrite utf8_encode_DELIMITER. cbn [bind].
  change (map (fun p => Z.land p 1) (flatten (im_rgb img)))
    with (map lsb (flatten (im_rgb img))).
  rewrite (scan_not_found _ Hn). reflexivity.
Qed.

Lemma decode_message_success_inv image_path password :
  dec_success (decode_message fs image_path password) = true ->
  exists img n,
    PIL.open fs image_path = inr img
    /\ first_delimiter (stream img) n
    /\ dec_secret (decode_message fs image_path password)
       = Some (decode_text (reverse_shift (take n (stream img)) password)).
Proof.
  unfold decode_message, decode_try.
  destruct (PIL.open fs image_path) as [e|img] eqn:Ho; cbn [bind].
  { destruct e; discriminate. }
  rewrite utf8_encode_DELIMITER. cbn [bind].
  change (map (fun p => Z.land p 1) (flatten (im_rgb img)))
    with (map lsb (flatten (im_rgb img))).
  destruct (scan DELIMITER _ [] []) as [payload|] eqn:Hs; [|discriminate].
  intros _. apply scan_inv in Hs as (n & Hn & ->).
  exists img, n. repeat split; try apply Hn. 
Qed.

End Steps.

(** ** Encoding followed by decoding *)

Section EncodeDecode.

Variable fs : gmap string file.

Lemma open_save output_path new_img :
  PIL.open (save fs output_path new_img) output_path = inr new_img.
Proof. unfold PIL.open, save. rewrite lookup_insert_eq. reflexivity. Qed.

(** A successful [encode_message] went through the whole [try] body and
    saved a picture. *)
Lemma encode_message_success_inv image_path message output_path password :
  enc_success (encode_message fs image_path message output_path password).1 = true ->
  exists new_img,
    encode_try fs image_path message password
    = inr ((encode_message fs image_path message output_path password).1,
           Some new_img)
    /\ (encode_message fs image_path message output_path password).2
       = save fs output_path new_img.
Proof.
  unfold encode_message.
  destruct (encode_try fs image_path message password)
    as [e|[r [new_img|]]] eqn:E.
  - destruct e; discriminate.
  - intros _. exists new_img. split; reflexivity.
  - cbn [fst]. intros Hr. exfalso. revert E. unfold encode_try.
    destruct (PIL.open fs image_path) as [|img]; cbn [bind]; [discriminate|].
    destruct (im_size img) as [w h].
    destruct (utf8_encode message) as [|u]; cbn [bind]; [discriminate|].
    rewrite utf8_encode_DELIMITER. cbn [bind].
    destruct (_ >? _).
    + intros [= <-]. discriminate.
    + destruct (embed _ _); cbn [bind]; [discriminate|].
      destruct (regroup _); discriminate.
Qed.

Lemma encode_message_fits image_path message output_path password img u :
  PIL.open fs image_path = inr img ->
  utf8_encode message = inr u ->
  wf_image img = true ->
  len (payload_bits u password) <= (im_size img).1 * (im_size img).2 * 3 ->
  exists new_pixels tail,
    encode_message fs image_path message output_path password
    = (encode_ok img u password,
       save fs output_path (new_RGB (im_size img) new_pixels))
    /\ stream (new_RGB (im_size img) new_pixels)
       = apply_shift u password ++ DELIMITER ++ tail.
Proof.
  intros Ho Hu Hwf Hcap.
  destruct (encode_try_fits fs image_path message password img u Ho Hu Hwf Hcap)
    as (new_pixels & Htry & Hflat & Hlen).
  exists new_pixels. eexists. split.
  - unfold encode_message. rewrite Htry. reflexivity.
  - apply (stream_embedded _ _ (flatten (im_rgb img)));
      [exact (utf8_encode_range _ _ Hu) | exact Hlen | exact Hflat].
Qed.

(** The round trip, for two passwords with the same checksum. *)
Lemma roundtrip_same_checksum image_path message output_path p1 p2 img u :
  PIL.open fs image_path = inr img ->
  utf8_encode message = inr u ->
  wf_image img = true ->
  len (payload_bits u p1) <= (im_size img).1 * (im_size img).2 * 3 ->
  shift_of p1 = shift_of p2 ->
  (forall j, ~ delimiter_at (apply_shift u p1) j) ->
  decode_message (encode_message fs image_path message output_path p1).2
                 output_path p2
  = {| dec_success := true; dec_message := Extracted;
       dec_secret := Some message |}.
Proof.
  intros Ho Hu Hwf Hcap Hs Hno.
  destruct (encode_message_fits image_path message output_path p1 img u
              Ho Hu Hwf Hcap) as (new_pixels & tail & -> & Hst).
  cbn [snd].
  rewrite (decode_message_found _ output_path p2 _ (length (apply_shift u p1))
             (open_save _ _)).
  - rewrite Hst, take_app_length.
    rewrite (reverse_apply_shift u p1 p2 (utf8_encode_range _ _ Hu) Hs).
    unfold decode_text. rewrite (utf8_decode_encode _ _ Hu). reflexivity.
  - rewrite Hst. apply first_delimiter_payload, Hno.
Qed.

End EncodeDecode.

(** ** Only the checksum of the password matters *)

Section Checksum.

Lemma is_bytes_take n bs : is_bytes bs = true -> is_bytes (take n bs) = true.
Proof.
  revert n. induction bs as [|b bs IH]; intros [|n]; try reflexivity.
  cbn [is_bytes forallb take]. intros [Hb Hbs]%andb_prop.
  rewrite Hb. exact (IH n Hbs).
Qed.

Lemma apply_shift_checksum b p1 p2 :
  is_bytes b = true -> shift_of p1 = shift_of p2 ->
  apply_shift b p1 = apply_shift b p2.
Proof.
  intros Hb Hs. rewrite !apply_shift_eq by exact Hb. rewrite Hs. reflexivity.
Qed.

Lemma reverse_shift_checksum b p1 p2 :
  is_bytes b = true -> shift_of p1 = shift_of p2 ->
  reverse_shift b p1 = reverse_shift b p2.
Proof.
  intros Hb Hs. rewrite !reverse_shift_eq by exact Hb. rewrite Hs. reflexivity.
Qed.

Lemma encode_try_checksum fs image_path message p1 p2 :
  shift_of p1 = shift_of p2 ->
  encode_try fs image_path message p1 = encode_try fs image_path message p2.
Proof.
  intros Hs. unfold encode_try.
  destruct (PIL.open fs image_path) as [|img]; cbn [bind]; [reflexivity|].
  destruct (im_size img) as [w h].
  destruct (utf8_encode message) as [|u] eqn:Hu; cbn [bind]; [reflexivity|].
  rewrite (apply_shift_checksum u p1 p2 (utf8_encode_range _ _ Hu) Hs).
  reflexivity.
Qed.

Lemma decode_try_checksum fs image_path p1 p2 :
  shift_of p1 = shift_of p2 ->
  decode_try fs image_path p1 = decode_try fs image_path p2.
Proof.
  intros Hs. unfold decode_try.
  destruct (PIL.open fs image_path) as [|img]; cbn [bind]; [reflexivity|].
  rewrite utf8_encode_DELIMITER. cbn [bind].
  change (map (fun p => Z.land p 1) (flatten (im_rgb img)))
    with (map lsb (flatten (im_rgb img))).
  destruct (scan DELIMITER _ [] []) as [payload|] eqn:E; [|reflexivity].
  apply scan_inv in E as (n & _ & ->).
  rewrite (reverse_shift_checksum _ p1 p2); [reflexivity| |exact Hs].
  apply is_bytes_take, bytes_of_bits_is_bytes, map_lsb_is_bit.
Qed.

End Checksum.

(** ** What the embedding changes *)

Section Frame.

Lemma embedded_lookup flat bits (i : nat) :
  (length bits <= length flat)%nat ->
  (zip_with set_lsb flat bits ++ drop (length bits) flat) !! i
  = match bits !! i with
    | Some bit => (fun v => set_lsb v bit) <$> flat !! i
    | None => flat !! i
    end.
Proof.
  intros Hlen.
  assert (Hz : length (zip_with set_lsb flat bits) = length bits)
    by (rewrite length_zip_with; lia).
  destruct (bits !! i) as [bit|] eqn:Hb.
  - pose proof (lookup_lt_Some _ _ _ Hb) as Hi.
    rewrite lookup_app_l by lia. rewrite lookup_zip_with, Hb.
    destruct (flat !! i); reflexivity.
  - pose proof (proj1 (lookup_ge_None _ _) Hb) as Hi.
    rewrite lookup_app_r by lia. rewrite lookup_drop, Hz. f_equal. lia.
Qed.

Lemma embedded_length flat bits :
  (length bits <= length flat)%nat ->
  length (zip_with set_lsb flat bits ++ drop (length bits) flat) = length flat.
Proof. intros H. rewrite length_app, length_zip_with, length_drop. lia. Qed.

End Frame.

(** ** Decoding with a password of another checksum *)

Section WrongPassword.

Lemma adjacent_equal_cons a l :
  adjacent_equal (a :: l)
  = (match l with
     | b :: _ => if (a =? b)%Z then 1 else 0
     | [] => 0
     end + adjacent_equal l)%nat.
Proof. destruct l; reflexivity. Qed.

Lemma adjacent_equal_app a b :
  (adjacent_equal a + adjacent_equal b <= adjacent_equal (a ++ b))%nat.
Proof.
  induction a as [|x a IH]; [cbn; lia|].
  cbn [app]. rewrite !adjacent_equal_cons.
  destruct a as [|y a]; cbn [app] in *; [cbn; lia|lia].
Qed.

Lemma adjacent_equal_map (f : Z -> Z) l :
  is_bytes l = true ->
  (forall x y, 0 <= x < 256 -> 0 <= y < 256 -> f x = f y -> x = y) ->
  adjacent_equal (map f l) = adjacent_equal l.
Proof.
  intros Hl Hf. induction l as [|a l IH]; [reflexivity|].
  cbn [is_bytes forallb] in Hl. apply andb_prop in Hl as [Ha Hl].
  cbn [map]. rewrite !adjacent_equal_cons, (IH Hl).
  destruct l as [|b l]; [reflexivity|]. cbn [map]. f_equal.
  cbn [is_bytes forallb] in Hl. apply andb_prop in Hl as [Hb _].
  unfold is_byte in Ha, Hb. apply andb_prop in Ha, Hb.
  destruct (a =? b) eqn:E.
  - apply Z.eqb_eq in E. subst b. rewrite Z.eqb_refl. reflexivity.
  - destruct (f a =? f b) eqn:E'; [|reflexivity].
    apply Z.eqb_eq, Hf in E'; lia.
Qed.

Lemma utf8_encode_cons c s u :
  utf8_encode (c :: s) = inr u ->
  exists cb rest, utf8_encode_char c = inr cb /\ utf8_encode s = inr rest
                  /\ u = cb ++ rest.
Proof.
  cbn [utf8_encode].
  destruct (utf8_encode_char c) as [|cb]; cbn [bind]; [discriminate|].
  destruct (utf8_encode s) as [|rest]; cbn [bind]; [discriminate|].
  intros [= <-]. eauto.
Qed.

(** Code points below 256 take one byte (themselves) or two (a lead byte
    from 0xC2 and a continuation byte). *)
Lemma utf8_encode_char_latin1 c cb :
  0 <= c < 256 -> utf8_encode_char c = inr cb ->
  (c < 128 /\ cb = [c])
  \/ (exists l k, cb = [l; k] /\ 194 <= l <= 195 /\ 128 <= k <= 191).
Proof.
  intros Hc. unfold utf8_encode_char, ret.
  replace (c <? 0) with false by (symmetry; lia).
  destruct (c <? 128) eqn:E.
  - intros [= <-]. left. split; [lia | reflexivity].
  - replace (c <? 2048) with true by (symmetry; lia).
    intros [= <-]. right. eexists _, _. split; [reflexivity|]. lia.
Qed.

Lemma utf8_encode_head c s u :
  0 <= c < 256 -> utf8_encode (c :: s) = inr u ->
  exists h t, u = h :: t /\ (h = c /\ c < 128 \/ 192 <= h).
Proof.
  intros Hc (cb & rest & Hcb & _ & ->)%utf8_encode_cons.
  destruct (utf8_encode_char_latin1 c cb Hc Hcb)
    as [[? ->]|(l & k & -> & ? & ?)]; cbn [app]; eexists _, _;
    (split; [reflexivity|]); lia.
Qed.

Lemma utf8_adjacent_equal m : forall u,
  is_bytes m = true -> utf8_encode m = inr u ->
  (adjacent_equal u <= adjacent_equal m)%nat.
Proof.
  induction m as [|c m IH]; intros u Hm Hu.
  - injection Hu as <-. reflexivity.
  - cbn [is_bytes forallb] in Hm. apply andb_prop in Hm as [Hc Hm].
    unfold is_byte in Hc. apply andb_prop in Hc.
    assert (Hc' : 0 <= c < 256) by lia.
    apply utf8_encode_cons in Hu as (cb & rest & Hcb & Hrest & ->).
    specialize (IH rest Hm Hrest).
    (* the first byte of what follows is no continuation byte *)
    assert (Hhd : match rest with
                  | [] => m = []
                  | h :: _ => exists c' m', m = c' :: m'
                                /\ (h = c' /\ c' < 128 \/ 192 <= h)
                  end).
    { destruct m as [|c' m'].
      - injection Hrest as <-. reflexivity.
      - cbn [is_bytes forallb] in Hm. apply andb_prop in Hm as [Hc2 _].
        unfold is_byte in Hc2. apply andb_prop in Hc2.
        destruct (utf8_encode_head c' m' rest) as (h & t & -> & Hh);
          [lia | exact Hrest |].
        exists c', m'. split; [reflexivity | exact Hh]. }
    destruct (utf8_encode_char_latin1 c cb Hc' Hcb)
      as [[Hlt ->]|(l & k & -> & Hl & Hk)]; cbn [app].
    + rewrite !adjacent_equal_cons.
      destruct rest as [|h t].
      * subst m. cbn. lia.
      * destruct Hhd as (c' & m' & -> & Hh).
        destruct Hh as [[-> _]|Hh]; [lia|].
        replace (c =? h) with false by (symmetry; lia). lia.
    + rewrite (adjacent_equal_cons l), (adjacent_equal_cons k), (adjacent_equal_cons c).
      replace (l =? k) with false by (symmetry; lia).
      destruct rest as [|h t]; [lia|].
      destruct Hhd as (c' & m' & -> & Hh).
      replace (k =? h) with false by (symmetry; lia). lia.
Qed.

Lemma utf8_encode_char_length c cb :
  utf8_encode_char c = inr cb ->
  (1 <= length cb)%nat /\ (length cb = 1%nat -> cb = [c]).
Proof.
  unfold utf8_encode_char, raise, ret.
  repeat case_match; intros [= <-]; cbn [length]; split; try lia;
    try reflexivity; discriminate.
Qed.

Lemma utf8_encode_length s : forall u,
  utf8_encode s = inr u -> (length s <= length u)%nat.
Proof.
  induction s as [|c s IH]; intros u Hu; [cbn; lia|].
  apply utf8_encode_cons in Hu as (cb & rest & Hcb & Hrest & ->).
  apply utf8_encode_char_length in Hcb as [Hcb _]. specialize (IH _ Hrest).
  rewrite length_app. cbn [length]. lia.
Qed.

(** Text whose encoding is no longer than itself is ASCII. *)
Lemma utf8_encode_same_length s : forall u,
  utf8_encode s = inr u -> length u = length s -> u = s.
Proof.
  induction s as [|c s IH]; intros u Hu Hlen.
  - injection Hu as <-. reflexivity.
  - apply utf8_encode_cons in Hu as (cb & rest & Hcb & Hrest & ->).
    apply utf8_encode_char_length in Hcb as [Hcb1 Hcb2].
    pose proof (utf8_encode_length _ _ Hrest) as Hr.
    rewrite length_app in Hlen. cbn [length] in Hlen.
    rewrite Hcb2 by lia. cbn [app]. f_equal. apply IH; [exact Hrest | lia].
Qed.

Lemma utf8_encode_nonempty s u :
  utf8_encode s = inr u -> s <> [] -> u <> [].
Proof.
  intros Hu Hs ->. apply utf8_encode_length in Hu. destruct s; [auto|].
  cbn in Hu. lia.
Qed.

Lemma shifted_differs u s1 s2 :
  is_bytes u = true -> u <> [] ->
  0 <= s1 < 256 -> 0 <= s2 < 256 -> s1 <> s2 ->
  map (fun x => (x - s2) mod 256) (map (fun x => (x + s1) mod 256) u) <> u.
Proof.
  intros Hu Hne H1 H2 Hs. destruct u as [|x u]; [congruence|].
  cbn [is_bytes forallb] in Hu. apply andb_prop in Hu as [Hx _].
  unfold is_byte in Hx. apply andb_prop in Hx.
  cbn [map]. intros [= E _]. lia.
Qed.

(** Whatever the first delimiter cuts out of the stream, un-shifting it
    with a password of another checksum never spells the message. *)
Lemma wrong_checksum_text m u p1 p2 tail n :
  utf8_encode m = inr u -> m <> [] -> shift_of p1 <> shift_of p2 ->
  first_delimiter (apply_shift u p1 ++ DELIMITER ++ tail) n ->
  decode_text
    (reverse_shift (take n (apply_shift u p1 ++ DELIMITER ++ tail)) p2) <> m.
Proof.
  intros Hu Hm Hs Hn.
  pose proof (utf8_encode_range _ _ Hu) as Hbytes.
  pose proof (apply_shift_is_bytes u p1 Hbytes) as HS.
  pose proof (shift_of_range p1) as R1. pose proof (shift_of_range p2) as R2.
  set (S := apply_shift u p1) in *.
  assert (HP : is_bytes (take n S) = true) by (apply is_bytes_take, HS).
  assert (Hlen : length S = length u) by apply apply_shift_length.
  destruct (first_delimiter_bound _ _ _ Hn) as [->|[Hfit Hat]].
  - (* the appended delimiter was found: the whole payload comes back *)
    rewrite take_app_length, reverse_shift_eq by exact HS.
    unfold S. rewrite apply_shift_eq by exact Hbytes. fold S.
    pose proof (shifted_differs u (shift_of p1) (shift_of p2) Hbytes
                  (utf8_encode_nonempty _ _ Hu Hm) R1 R2 Hs) as Hdiff.
    unfold decode_text, latin1_decode.
    destruct (utf8_decode _) as [e|s] eqn:D; intros E.
    + apply Hdiff. rewrite E. symmetry. apply utf8_encode_same_length; [exact Hu|].
      rewrite <- E, !length_map. reflexivity.
    + subst s. apply utf8_encode_decode in D. congruence.
  - (* a delimiter inside the shifted payload cut it short *)
    rewrite take_app_le by lia. rewrite reverse_shift_eq by exact HP.
    unfold decode_text, latin1_decode.
    destruct (utf8_decode _) as [e|s] eqn:D; intros E.
    + assert (HSm : is_bytes m = true) by (rewrite <- E; apply is_bytes_map_mod).
      pose proof (utf8_adjacent_equal m u HSm Hu) as A1.
      assert (A2 : adjacent_equal m = adjacent_equal (take n S)).
      { rewrite <- E. apply adjacent_equal_map; [exact HP|]. intros; lia. }
      assert (A3 : adjacent_equal S = adjacent_equal u).
      { unfold S. rewrite apply_shift_eq by exact Hbytes.
        apply adjacent_equal_map; [exact Hbytes|]. intros; lia. }
      assert (A4 : (adjacent_equal (take n S) + 2 <= adjacent_equal S)%nat).
      { rewrite <- (take_drop n S) at 2.
        rewrite <- (take_drop 7 (drop n S)).
        unfold delimiter_at in Hat. rewrite DELIMITER_length in Hat. rewrite Hat.
        pose proof (adjacent_equal_app (take n S) (DELIMITER ++ drop 7 (drop n S))).
        pose proof (adjacent_equal_app DELIMITER (drop 7 (drop n S))).
        change (adjacent_equal DELIMITER) with 2%nat in *. lia. }
      lia.
    + subst s. apply utf8_encode_decode in D.
      assert (E : map (fun x => (x - shift_of p2) mod 256) (take n S) = u) by congruence.
      apply (f_equal length) in E. rewrite length_map, length_take in E. lia.
Qed.

End WrongPassword.

(** * The password transform *)

(** C2. For every byte sequence [b] and every password [p], undoing the
    shift of [b] under [p] with the same password gives [b] back, and the
    shift keeps the number of bytes. *)
Theorem shift_roundtrip (b : bytes) (p : str) :
  is_bytes b = true ->
  reverse_shift (apply_shift b p) p = b
  /\ length (apply_shift b p) = length b.
Proof.
  intros Hb. split.
  - apply reverse_apply_shift; [exact Hb | reflexivity].
  - apply apply_shift_length.
Qed.

Lemma shift_roundtrip_witness :
  reverse_shift (apply_shift [0; 104; 255] (lit "hunter2")) (lit "hunter2")
  = [0; 104; 255]
  /\ length (apply_shift [0; 104; 255] (lit "hunter2")) = 3%nat.
Proof. apply (shift_roundtrip [0; 104; 255] (lit "hunter2")). reflexivity. Defined.

(** C10. The transform sees the password only through the sum of its code
    points modulo 256: for bytes [b] and passwords [p1], [p2] with the same
    checksum (an empty password counts as checksum 0), both shifts agree,
    [encode_message] and [decode_message] behave the same under either
    password, and what was encoded with [p1] decodes exactly with [p2]. *)
Theorem password_checksum_only (b : bytes) (p1 p2 : str) :
  is_bytes b = true ->
  shift_of p1 = shift_of p2 ->
  apply_shift b p1 = apply_shift b p2
  /\ reverse_shift b p1 = reverse_shift b p2
  /\ (forall fs image_path message output_path,
        encode_message fs image_path message output_path p1
        = encode_message fs image_path message output_path p2)
  /\ (forall fs image_path,
        decode_message fs image_path p1 = decode_message fs image_path p2)
  /\ (forall fs image_path message output_path img u,
        PIL.open fs image_path = inr img ->
        wf_image img = true ->
        utf8_encode message = inr u ->
        8 * (len u + len DELIMITER) <= (im_size img).1 * (im_size img).2 * 3 ->
        (forall j, ~ delimiter_at (apply_shift u p1) j) ->
        decode_message (encode_message fs image_path message output_path p1).2
                       output_path p2
        = {| dec_success := true; dec_message := Extracted;
             dec_secret := Some message |}).
Proof.
  intros Hb Hs. repeat split.
  - apply apply_shift_checksum; assumption.
  - apply reverse_shift_checksum; assumption.
  - intros. unfold encode_message.
    rewrite (encode_try_checksum _ _ _ p1 p2 Hs). reflexivity.
  - intros. unfold decode_message.
    rewrite (decode_try_checksum _ _ p1 p2 Hs). reflexivity.
  - intros fs image_path message output_path img u Ho Hwf Hu Hcap Hno.
    apply (roundtrip_same_checksum fs image_path message output_path p1 p2 img u);
      try assumption.
    unfold len in *. rewrite payload_bits_length. rewrite DELIMITER_length in Hcap. lia.
Qed.

(** The one-character password U+0100 has checksum 0, like no password. *)
Lemma password_checksum_only_witness :
  apply_shift [104; 105] [256] = apply_shift [104; 105] []
  /\ reverse_shift [104; 105] [256] = reverse_shift [104; 105] []
  /\ (forall fs image_path message output_path,
        encode_message fs image_path message output_path [256]
        = encode_message fs image_path message output_path [])
  /\ (forall fs image_path,
        decode_message fs image_path [256] = decode_message fs image_path [])
  /\ (forall fs image_path message output_path img u,
        PIL.open fs image_path = inr img ->
        wf_image img = true ->
        utf8_encode message = inr u ->
        8 * (len u + len DELIMITER) <= (im_size img).1 * (im_size img).2 * 3 ->
        (forall j, ~ delimiter_at (apply_shift u [256]) j) ->
        decode_message (encode_message fs image_path message output_path [256]).2
                       output_path []
        = {| dec_success := true; dec_message := Extracted;
             dec_secret := Some message |}).
Proof. apply (password_checksum_only [104; 105] [256] []); reflexivity. Defined.

(** * Round trip *)

(** C1, as the code has it. For every well-formed picture with room for
    the message and the delimiter, every UTF-8 encodable message and every
    password (the empty one included), provided the shifted payload bytes
    do not contain the delimiter bytes, decoding what [encode_message]
    saved, with the same password, succeeds with the message. *)
Theorem roundtrip (fs : gmap string file) (image_path output_path : string)
    (message password : str) (img : Image) (u : bytes) :
  PIL.open fs image_path = inr img ->
  wf_image img = true ->
  utf8_encode message = inr u ->
  8 * (len u + len DELIMITER) <= (im_size img).1 * (im_size img).2 * 3 ->
  (forall j, ~ delimiter_at (apply_shift u password) j) ->
  decode_message (encode_message fs image_path message output_path password).2
                 output_path password
  = {| dec_success := true; dec_message := Extracted;
       dec_secret := Some message |}.
Proof.
  intros Ho Hwf Hu Hcap Hno.
  apply (roundtrip_same_checksum fs image_path message output_path
           password password img u); try assumption; try reflexivity.
  unfold len in *. rewrite payload_bits_length. rewrite DELIMITER_length in Hcap. lia.
Qed.

Lemma roundtrip_witness :
  decode_message (encode_message disk "in.png" (lit "hi") "out.png" (lit "pw")).2
                 "out.png" (lit "pw")
  = {| dec_success := true; dec_message := Extracted;
       dec_secret := Some (lit "hi") |}.
Proof.
  apply (roundtrip disk "in.png" "out.png" (lit "hi") (lit "pw") carrier (lit "hi")).
  - reflexivity.
  - reflexivity.
  - reflexivity.
  - vm_compute. discriminate.
  - intros j H. apply (f_equal length) in H.
    rewrite length_take, length_drop, apply_shift_length, DELIMITER_length in H.
    change (length (lit "hi")) with 2%nat in H. lia.
Defined.

(** C1 as stated fails: the message [<<END>>] fits the carrier, is encoded
    without error, and decodes, without password, to the empty string. *)
Lemma roundtrip_counterexample :
  PIL.open disk "in.png" = inr carrier
  /\ wf_image carrier = true
  /\ utf8_encode (lit "<<END>>") = inr (lit "<<END>>")
  /\ 8 * (len (lit "<<END>>") + len DELIMITER)
     <= (im_size carrier).1 * (im_size carrier).2 * 3
  /\ enc_success (encode_message disk "in.png" (lit "<<END>>") "out.png" []).1 = true
  /\ decode_message (encode_message disk "in.png" (lit "<<END>>") "out.png" []).2
                    "out.png" []
     = {| dec_success := true; dec_message := Extracted; dec_secret := Some [] |}
  /\ dec_secret
       (decode_message (encode_message disk "in.png" (lit "<<END>>") "out.png" []).2
                       "out.png" [])
     <> Some (lit "<<END>>").
Proof.
  repeat split; try reflexivity.
  - vm_compute. discriminate.
  - vm_compute. discriminate.
Qed.

(** * Capacity *)

(** C3. When the bits of the payload and the delimiter exceed
    [width * height * 3], [encode_message] returns the capacity failure,
    which carries the available and the required size, and the file system
    is left as it was. *)
Theorem capacity_rejection (fs : gmap string file) (image_path output_path : string)
    (message password : str) (img : Image) (u : bytes) :
  PIL.open fs image_path = inr img ->
  utf8_encode message = inr u ->
  8 * (len u + len DELIMITER) > (im_size img).1 * (im_size img).2 * 3 ->
  encode_message fs image_path message output_path password
  = ({| enc_success := false;
        enc_message :=
          TooLarge ((im_size img).1 * (im_size img).2 * 3 / 8 - len DELIMITER)
                   (len u + len DELIMITER);
        enc_capacity := (im_size img).1 * (im_size img).2 * 3 / 8;
        enc_used := len u + len DELIMITER |},
     fs).
Proof.
  intros Ho Hu Hcap. unfold encode_message.
  rewrite (encode_try_too_large fs image_path message password img u Ho Hu).
  - unfold encode_too_large, len. rewrite length_app, apply_shift_length.
    rewrite Nat2Z.inj_add. reflexivity.
  - unfold len in *. rewrite payload_bits_length. rewrite DELIMITER_length in Hcap. lia.
Qed.

Lemma capacity_rejection_witness :
  encode_message disk "in.png" (lit "hi there!") "out.png" (lit "pw")
  = ({| enc_success := false; enc_message := TooLarge (40 * 1 * 3 / 8 - 7) (9 + 7);
        enc_capacity := 40 * 1 * 3 / 8; enc_used := 9 + 7 |}, disk).
Proof.
  apply (capacity_rejection disk "in.png" "out.png" (lit "hi there!") (lit "pw")
           carrier (lit "hi there!")).
  - reflexivity.
  - reflexivity.
  - vm_compute. reflexivity.
Defined.

(** C4. For every picture, [image_capacity] reports
    [max (width * height * min(channels, 3) // 8 - len(DELIMITER) - 10, 0)];
    so, at equal channel count, a picture with at least as many pixels has
    at least the capacity. *)
Theorem capacity_formula (fs : gmap string file) (image_path : string) (img : Image) :
  PIL.open fs image_path = inr img ->
  image_capacity fs image_path
  = CapacityOk (im_size img).1 (im_size img).2 (im_mode img)
      (Z.max ((im_size img).1 * (im_size img).2 * Z.min (len (im_bands img)) 3 / 8
              - len DELIMITER - 10) 0)
  /\ forall fs' image_path' img' c c',
       PIL.open fs' image_path' = inr img' ->
       len (im_bands img') = len (im_bands img) ->
       (im_size img).1 * (im_size img).2 <= (im_size img').1 * (im_size img').2 ->
       capacity_chars_of (image_capacity fs image_path) = Some c ->
       capacity_chars_of (image_capacity fs' image_path') = Some c' ->
       c <= c'.
Proof.
  intros Ho.
  assert (Hcap : forall fs0 path0 img0, PIL.open fs0 path0 = inr img0 ->
            image_capacity fs0 path0
            = CapacityOk (im_size img0).1 (im_size img0).2 (im_mode img0)
                (Z.max ((im_size img0).1 * (im_size img0).2
                        * Z.min (len (im_bands img0)) 3 / 8
                        - len DELIMITER - 10) 0)).
  { intros fs0 path0 img0 H0. unfold image_capacity. rewrite H0. cbn [bind].
    destruct (im_size img0) as [w h]. reflexivity. }
  split; [apply Hcap, Ho|].
  intros fs' image_path' img' c c' Ho' Hb Hsz.
  rewrite (Hcap _ _ _ Ho), (Hcap _ _ _ Ho'). cbn [capacity_chars_of].
  intros [= <-] [= <-]. rewrite Hb.
  assert (0 <= Z.min (len (im_bands img)) 3) by (unfold len; lia).
  assert ((im_size img).1 * (im_size img).2 * Z.min (len (im_bands img)) 3
          <= (im_size img').1 * (im_size img').2 * Z.min (len (im_bands img)) 3)
    by (apply Z.mul_le_mono_nonneg_r; assumption).
  assert ((im_size img).1 * (im_size img).2 * Z.min (len (im_bands img)) 3 / 8
          <= (im_size img').1 * (im_size img').2 * Z.min (len (im_bands img)) 3 / 8)
    by (apply Z.div_le_mono; lia).
  lia.
Qed.

Lemma capacity_formula_witness :
  image_capacity disk "in.png" = CapacityOk 40 1 "RGB" 0 /\ 0 <= 20.
Proof.
  destruct (capacity_formula disk "in.png" carrier eq_refl) as [H1 H2].
  split; [exact H1|].
  apply (H2 {[ "sq.png"%string := Picture square_carrier ]} "sq.png"%string
            square_carrier 0 20).
  - reflexivity.
  - reflexivity.
  - vm_compute. discriminate.
  - reflexivity.
  - reflexivity.
Defined.

(** * The delimiter *)

(** C5. The delimiter bytes are the UTF-8 bytes of [<<END>>].
    [encode_message] puts them right after the already shifted payload
    bytes: the byte stream of the saved picture
    starts with the shifted payload followed by the delimiter.
    [decode_message] looks for the delimiter in the bytes as they are
    stored and hands to the reverse shift exactly the bytes before its
    first occurrence, the delimiter gone. *)
Theorem delimiter_after_shift_before_unshift
    (fs : gmap string file) (image_path : string) (password : str) :
  utf8_encode (lit "<<END>>") = inr DELIMITER
  /\ (forall message output_path,
      enc_success (encode_message fs image_path message output_path password).1
      = true ->
      exists u new_img tail,
        utf8_encode message = inr u
        /\ (encode_message fs image_path message output_path password).2
           = save fs output_path new_img
        /\ stream new_img = apply_shift u password ++ DELIMITER ++ tail)
  /\ (forall img before rest,
        PIL.open fs image_path = inr img ->
        stream img = before ++ DELIMITER ++ rest ->
        (forall j, (j < length before)%nat -> ~ delimiter_at (stream img) j) ->
        decode_message fs image_path password
        = {| dec_success := true; dec_message := Extracted;
             dec_secret := Some (decode_text (reverse_shift before password)) |}).
Proof.
  split; [reflexivity|]. split.
  - intros message output_path Hok.
    destruct (encode_message_success_inv fs _ _ _ _ Hok) as (new_img & Htry & Hfs).
    destruct (encode_try_inv fs _ _ _ _ _ Htry)
      as (img & u & new_pixels & _ & Hu & _ & Hlen & Hflat & -> & _).
    exists u, (new_RGB (im_size img) new_pixels). eexists.
    split; [exact Hu|]. split; [exact Hfs|].
    apply (stream_embedded _ _ (flatten (im_rgb img)));
      [exact (utf8_encode_range _ _ Hu) | exact Hlen | exact Hflat].
  - intros img before rest Ho Hst Hmin.
    rewrite (decode_message_found fs image_path password img (length before) Ho).
    + rewrite Hst, take_app_length. reflexivity.
    + split; [|exact Hmin]. rewrite Hst. apply delimiter_at_end.
Qed.

Lemma delimiter_after_shift_before_unshift_witness :
  (exists u new_img tail,
      utf8_encode (lit "hi") = inr u
      /\ (encode_message disk "in.png" (lit "hi") "out.png" (lit "pw")).2
         = save disk "out.png" new_img
      /\ stream new_img = apply_shift u (lit "pw") ++ DELIMITER ++ tail)
  /\ decode_message {[ "s.png"%string := Picture stego ]} "s.png" (lit "pw")
     = {| dec_success := true; dec_message := Extracted;
          dec_secret := Some (decode_text (reverse_shift [65; 66] (lit "pw"))) |}.
Proof.
  destruct (delimiter_after_shift_before_unshift disk "in.png" (lit "pw"))
    as (_ & H1 & _).
  split; [apply (H1 (lit "hi") "out.png"%string); reflexivity|].
  destruct (delimiter_after_shift_before_unshift
              {[ "s.png"%string := Picture stego ]} "s.png" (lit "pw"))
    as (_ & _ & H2).
  apply (H2 stego [65; 66] []).
  - reflexivity.
  - reflexivity.
  - intros j Hj. cbn [length] in Hj.
    destruct j as [|[|j]]; [vm_compute; discriminate | vm_compute; discriminate | lia].
Defined.

(** * Failures of the decoder are results *)

(** C6. [decode_message] always returns a result dictionary.  When the
    picture cannot be opened the result is a failure without secret; when
    the delimiter occurs nowhere in the byte stream of the least
    significant bits the result is the "no hidden message" failure,
    without secret; and when the bytes before the first delimiter, once
    un-shifted, are not valid UTF-8, the result is a success whose secret
    is their Latin-1 reading. *)
Theorem decode_never_raises (fs : gmap string file) (image_path : string)
    (password : str) :
  (forall e, PIL.open fs image_path = inl e ->
     dec_success (decode_message fs image_path password) = false
     /\ dec_secret (decode_message fs image_path password) = None)
  /\ (forall img, PIL.open fs image_path = inr img ->
        (forall n, ~ delimiter_at (stream img) n) ->
        decode_message fs image_path password
        = {| dec_success := false; dec_message := NoHiddenMessage;
             dec_secret := None |})
  /\ (forall img n e, PIL.open fs image_path = inr img ->
        first_delimiter (stream img) n ->
        utf8_decode (reverse_shift (take n (stream img)) password) = inl e ->
        decode_message fs image_path password
        = {| dec_success := true; dec_message := Extracted;
             dec_secret :=
               Some (latin1_decode
                       (reverse_shift (take n (stream img)) password)) |}).
Proof.
  split; [|split].
  - intros e He. unfold decode_message, decode_try. rewrite He.
    destruct e; split; reflexivity.
  - intros img Ho Hno. apply (decode_message_not_found fs _ _ img Ho Hno).
  - intros img n e Ho Hn Hd.
    rewrite (decode_message_found fs _ _ img n Ho Hn).
    unfold decode_text. rewrite Hd. reflexivity.
Qed.

Lemma decode_never_raises_witness :
  (dec_success (decode_message disk "none.png" (lit "pw")) = false
   /\ dec_secret (decode_message disk "none.png" (lit "pw")) = None)
  /\ decode_message disk "in.png" (lit "pw")
     = {| dec_success := false; dec_message := NoHiddenMessage;
          dec_secret := None |}
  /\ decode_message {[ "s.png"%string := Picture stego ]} "s.png" (lit "~")
     = {| dec_success := true; dec_message := Extracted;
          dec_secret := Some [195; 196] |}.
Proof.
  split; [|split].
  - destruct (decode_never_raises disk "none.png" (lit "pw")) as [H _].
    apply (H FileNotFoundError). reflexivity.
  - destruct (decode_never_raises disk "in.png" (lit "pw")) as (_ & H & _).
    apply (H carrier); [reflexivity|].
    intros n Hn. unfold delimiter_at in Hn.
    change (stream carrier) with (repeat 0 15) in Hn.
    apply (f_equal (fun l => head l)) in Hn.
    destruct (lt_dec n 15) as [L|L].
    + do 15 (destruct n as [|n]; [discriminate Hn|]). lia.
    + rewrite drop_ge in Hn by (rewrite repeat_length; lia). discriminate Hn.
  - destruct (decode_never_raises {[ "s.png"%string := Picture stego ]}
                "s.png" (lit "~")) as (_ & _ & H).
    apply (H stego 2%nat UnicodeDecodeError).
    + reflexivity.
    + split; [reflexivity|]. intros j Hj.
      destruct j as [|[|j]]; [vm_compute; discriminate | vm_compute; discriminate | lia].
    + reflexivity.
Defined.

(** * Wrong password *)

(** C7, as the code has it. For every non-empty message and passwords of
    different checksums, whenever encoding with the first succeeds and
    decoding the saved picture with the second reports success, the
    secret returned is not the message. *)
Theorem wrong_password_garbles (fs : gmap string file)
    (image_path output_path : string) (message p1 p2 : str) :
  message <> [] ->
  shift_of p1 <> shift_of p2 ->
  enc_success (encode_message fs image_path message output_path p1).1 = true ->
  dec_success
    (decode_message (encode_message fs image_path message output_path p1).2
                    output_path p2) = true ->
  dec_secret
    (decode_message (encode_message fs image_path message output_path p1).2
                    output_path p2) <> Some message.
Proof.
  intros Hm Hs Henc Hdec.
  destruct (encode_message_success_inv fs _ _ _ _ Henc) as (new_img & Htry & Hfs).
  destruct (encode_try_inv fs _ _ _ _ _ Htry)
    as (img & u & new_pixels & _ & Hu & _ & Hlen & Hflat & -> & _).
  pose proof (stream_embedded (im_size img) new_pixels (flatten (im_rgb img)) u p1
                (utf8_encode_range _ _ Hu) Hlen Hflat) as Hst.
  rewrite Hfs in *.
  destruct (decode_message_success_inv _ _ _ Hdec) as (img' & n & Ho & Hn & ->).
  rewrite open_save in Ho. injection Ho as <-.
  rewrite Hst in *. intros [= E].
  exact (wrong_checksum_text message u p1 p2 _ n Hu Hm Hs Hn E).
Qed.

Lemma wrong_password_garbles_witness :
  dec_secret
    (decode_message (encode_message disk "in.png" (lit "hi") "out.png" (lit "pw")).2
                    "out.png" (lit "px")) <> Some (lit "hi").
Proof.
  apply (wrong_password_garbles disk "in.png" "out.png" (lit "hi") (lit "pw") (lit "px")).
  - discriminate.
  - vm_compute. discriminate.
  - reflexivity.
  - reflexivity.
Defined.

(** C7 as stated fails on the empty message, which every password leaves
    empty: encoded under [a] and decoded under [b], it comes back. *)
Lemma wrong_password_counterexample :
  lit "a" <> lit "b"
  /\ shift_of (lit "a") <> shift_of (lit "b")
  /\ enc_success (encode_message disk "in.png" [] "out.png" (lit "a")).1 = true
  /\ decode_message (encode_message disk "in.png" [] "out.png" (lit "a")).2
                    "out.png" (lit "b")
     = {| dec_success := true; dec_message := Extracted; dec_secret := Some [] |}.
Proof.
  repeat split; try reflexivity; vm_compute; discriminate.
Qed.

(** * The bit helpers *)

(** On bits that are 0 or 1, [_bits_to_text] reads the completed bytes one
    character per byte. *)
Lemma bits_to_text_latin1 (k : nat) : forall bits,
  length bits = k -> forallb is_bit bits = true ->
  _bits_to_text bits = inr (latin1_decode (bytes_of_bits bits)).
Proof.
  induction k as [k IH] using lt_wf_ind. intros bits Hk Hb.
  pose proof (bytes_of_bits_is_bytes bits Hb) as Hbyte.
  do 8 (destruct bits as [|? bits]; [reflexivity|]).
  cbn [_bits_to_text bytes_of_bits].
  cbn [bytes_of_bits is_bytes forallb] in Hbyte. apply andb_prop in Hbyte as [Hbyte _].
  unfold is_byte in Hbyte. apply andb_prop in Hbyte.
  unfold chr_checked.
  replace ((0 <=? _) && (_ <? 1114112)) with true
    by (symmetry; apply andb_true_intro; lia).
  cbn [bind ret]. cbn [forallb] in Hb.
  rewrite (IH (length bits)); [reflexivity | cbn in Hk; lia | reflexivity |].
  repeat (apply andb_prop in Hb as [_ Hb]). exact Hb.
Qed.

(** C8. [_bits_to_text] does group the bits in eights, most significant
    first, and drops a trailing partial group, but it turns each byte into
    one character instead of decoding UTF-8: the bits that
    [_text_to_bits] gives for U+00E9 come back as U+00C3 U+00A9, although
    their bytes are the UTF-8 encoding of U+00E9. *)
Theorem bits_to_text_not_utf8 :
  _text_to_bits [0xE9] = inr [1; 1; 0; 0; 0; 0; 1; 1; 1; 0; 1; 0; 1; 0; 0; 1]
  /\ _bits_to_text [1; 1; 0; 0; 0; 0; 1; 1; 1; 0; 1; 0; 1; 0; 0; 1]
     = inr [0xC3; 0xA9]
  /\ _bits_to_text [1; 1; 0; 0; 0; 0; 1; 1; 1; 0; 1; 0; 1; 0; 0; 1; 1; 0; 1]
     = inr [0xC3; 0xA9]
  /\ utf8_decode (bytes_of_bits [1; 1; 0; 0; 0; 0; 1; 1; 1; 0; 1; 0; 1; 0; 0; 1])
     = inr [0xE9].
Proof. repeat split. Qed.

(** * What encoding leaves alone *)

(** C9. After a successful [encode_message] the saved picture has the size
    of the input and, in the flattened channel sequence: as many values as
    before; at each index below [len(bits)] the least significant bit is
    that bit; at each index from [len(bits)] on the value is the input's;
    and at every index the bits above the least significant one are the
    input's.  No other path of the file system changes. *)
Theorem encode_frame (fs : gmap string file) (image_path output_path : string)
    (message password : str) :
  enc_success (encode_message fs image_path message output_path password).1 = true ->
  exists img u new_img,
    PIL.open fs image_path = inr img
    /\ utf8_encode message = inr u
    /\ (encode_message fs image_path message output_path password).2
       = save fs output_path new_img
    /\ (forall path, path <> output_path ->
          (encode_message fs image_path message output_path password).2 !! path
          = fs !! path)
    /\ im_size new_img = im_size img
    /\ length (flatten (im_rgb new_img)) = length (flatten (im_rgb img))
    /\ (forall (i : nat) bit, payload_bits u password !! i = Some bit ->
          lsb <$> flatten (im_rgb new_img) !! i = Some bit)
    /\ (forall i : nat, (length (payload_bits u password) <= i)%nat ->
          flatten (im_rgb new_img) !! i = flatten (im_rgb img) !! i)
    /\ (forall (i : nat) v', flatten (im_rgb new_img) !! i = Some v' ->
          exists v, flatten (im_rgb img) !! i = Some v
                    /\ Z.shiftr v' 1 = Z.shiftr v 1).
Proof.
  intros Henc.
  destruct (encode_message_success_inv fs _ _ _ _ Henc) as (new_img & Htry & Hfs).
  destruct (encode_try_inv fs _ _ _ _ _ Htry)
    as (img & u & new_pixels & Ho & Hu & _ & Hlen & Hflat & -> & _).
  exists img, u, (new_RGB (im_size img) new_pixels).
  cbn [new_RGB im_rgb im_size]. rewrite Hflat.
  assert (Hbit : forall (i : nat) bit, payload_bits u password !! i = Some bit ->
                   is_bit bit = true).
  { intros i bit Hi.
    pose proof (flat_map_byte_bits_is_bit (apply_shift u password ++ DELIMITER)) as Hall.
    rewrite forallb_forall in Hall. apply Hall, list_elem_of_In.
    apply (list_elem_of_lookup_2 _ i), Hi. }
  repeat split; try assumption.
  - intros path Hne. rewrite Hfs. unfold save. apply lookup_insert_ne. congruence.
  - apply embedded_length, Hlen.
  - intros i bit Hi. rewrite (embedded_lookup _ _ i Hlen), Hi.
    pose proof (lookup_lt_Some _ _ _ Hi) as Hlt.
    destruct (lookup_lt_is_Some_2 (flatten (im_rgb img)) i) as [v Hv]; [lia|].
    rewrite Hv. cbn. rewrite lsb_set_lsb by (apply (Hbit i), Hi). reflexivity.
  - intros i Hi. rewrite (embedded_lookup _ _ i Hlen).
    rewrite (proj2 (lookup_ge_None _ _) Hi). reflexivity.
  - intros i v'. rewrite (embedded_lookup _ _ i Hlen).
    destruct (payload_bits u password !! i) as [bit|] eqn:Hi.
    + destruct (flatten (im_rgb img) !! i) as [v|]; cbn; [|discriminate].
      intros [= <-]. exists v. split; [reflexivity|].
      apply shiftr_set_lsb, (Hbit i), Hi.
    + intros Hv. exists v'. split; [exact Hv | reflexivity].
Qed.

Lemma encode_frame_witness :
  exists img u new_img,
    PIL.open disk "in.png" = inr img
    /\ utf8_encode (lit "hi") = inr u
    /\ (encode_message disk "in.png" (lit "hi") "out.png" (lit "pw")).2
       = save disk "out.png" new_img
    /\ (forall path, path <> "out.png"%string ->
          (encode_message disk "in.png" (lit "hi") "out.png" (lit "pw")).2 !! path
          = disk !! path)
    /\ im_size new_img = im_size img
    /\ length (flatten (im_rgb new_img)) = length (flatten (im_rgb img))
    /\ (forall (i : nat) bit, payload_bits u (lit "pw") !! i = Some bit ->
          lsb <$> flatten (im_rgb new_img) !! i = Some bit)
    /\ (forall i : nat, (length (payload_bits u (lit "pw")) <= i)%nat ->
          flatten (im_rgb new_img) !! i = flatten (im_rgb img) !! i)
    /\ (forall (i : nat) v', flatten (im_rgb new_img) !! i = Some v' ->
          exists v, flatten (im_rgb img) !! i = Some v
                    /\ Z.shiftr v' 1 = Z.shiftr v 1).
Proof.
  apply (encode_frame disk "in.png" "out.png" (lit "hi") (lit "pw")). reflexivity.
Defined.

(** * Further properties of the codec *)

(** ** More about the UTF-8 codec *)

Lemma utf8_encode_app a : forall b ua ub,
  utf8_encode a = inr ua -> utf8_encode b = inr ub ->
  utf8_encode (a ++ b) = inr (ua ++ ub).
Proof.
induction a as [|c a IH]; intros b ua ub Ha Hb.
- injection Ha as <-. exact Hb.
- apply utf8_encode_cons in Ha as (cb & rest & Hcb & Hrest & ->).
  cbn [app utf8_encode]. rewrite Hcb, (IH b rest ub Hrest Hb). cbn [bind ret].
  rewrite <- app_assoc. reflexivity.
Qed.

Lemma utf8_encode_ascii s :
  forallb is_ascii s = true -> utf8_encode s = inr s.
Proof.
induction s as [|c s IH]; [reflexivity|].
cbn [forallb]. intros [Hc Hs]%andb_prop.
unfold is_ascii in Hc. apply andb_prop in Hc.
cbn [utf8_encode]. rewrite (IH Hs). unfold utf8_encode_char.
replace (c <? 0) with false by (symmetry; lia).
replace (c <? 128) with true by (symmetry; lia). reflexivity.
Qed.



Lemma utf8_encode_char_error c e :
  utf8_encode_char c = inl e -> e = UnicodeEncodeError.
Proof.
unfold utf8_encode_char, raise, ret.
repeat case_match; intros [= <-]; reflexivity.
Qed.

Lemma utf8_encode_error s e :
  utf8_encode s = inl e -> e = UnicodeEncodeError.
Proof.
induction s as [|c s IH]; [discriminate|].
cbn [utf8_encode].
destruct (utf8_encode_char c) as [e'|cb] eqn:Hc; cbn [bind].
- intros [= <-]. exact (utf8_encode_char_error _ _ Hc).
- destruct (utf8_encode s) as [e'|rest]; cbn [bind]; [|discriminate].
  intros [= <-]. apply IH. reflexivity.
Qed.

Lemma utf8_encode_surrogate s :
  existsb is_surrogate s = true -> utf8_encode s = inl UnicodeEncodeError.
Proof.
induction s as [|c s IH]; [discriminate|].
cbn [existsb utf8_encode]. intros H.
destruct (utf8_encode_char c) as [e|cb] eqn:Hc; cbn [bind].
- rewrite (utf8_encode_char_error _ _ Hc). reflexivity.
- destruct (is_surrogate c) eqn:Hs.
  + exfalso. revert Hc. unfold utf8_encode_char, is_surrogate in *.
    apply andb_prop in Hs.
    replace (c <? 0) with false by (symmetry; lia).
    replace (c <? 128) with false by (symmetry; lia).
    replace (c <? 2048) with false by (symmetry; lia).
    replace (c <? 65536) with true by (symmetry; lia).
    replace ((55296 <=? c) && (c <=? 57343)) with true
      by (symmetry; apply andb_true_intro; lia).
    discriminate.
  + cbn [orb] in H. rewrite (IH H). reflexivity.
Qed.

Lemma utf8_decode_length bs s :
  utf8_decode bs = inr s -> (length s <= length bs)%nat.
Proof. intros H. apply utf8_encode_length, utf8_encode_decode, H. Qed.

Lemma decode_text_length bs : (length (decode_text bs) <= length bs)%nat.
Proof.
unfold decode_text, latin1_decode.
destruct (utf8_decode bs) as [|s] eqn:E; [lia|]. exact (utf8_decode_length _ _ E).
Qed.

(** ** More about bits and bytes *)

Lemma bytes_of_bits_byte_bits bs :
  is_bytes bs = true -> bytes_of_bits (flat_map byte_bits bs) = bs.
Proof.
intros Hb. rewrite <- (app_nil_r (flat_map byte_bits bs)).
rewrite bytes_of_bits_app by exact Hb. apply app_nil_r.
Qed.

Lemma bytes_of_bits_length (k : nat) : forall bits,
  length bits = k -> (8 * length (bytes_of_bits bits) <= length bits)%nat
  /\ (length bits < 8 * length (bytes_of_bits bits) + 8)%nat.
Proof.
induction k as [k IH] using lt_wf_ind. intros bits Hk.
do 8 (destruct bits as [|? bits]; [cbn; lia|]).
cbn [bytes_of_bits length] in *.
destruct (IH (length bits)) with (bits := bits) as [H1 H2]; [lia | reflexivity |].
lia.
Qed.

Lemma bits_to_text_drops_tail (k : nat) : forall bits extra,
  length bits = (8 * k)%nat -> (length extra < 8)%nat ->
  _bits_to_text (bits ++ extra) = _bits_to_text bits.
Proof.
induction k as [|k IH]; intros bits extra Hk He.
- destruct bits; [|cbn in Hk; lia]. cbn [app].
  do 8 (destruct extra as [|? extra]; [reflexivity|]). cbn in He. lia.
- do 8 (destruct bits as [|? bits]; [cbn in Hk; lia|]).
  cbn [app _bits_to_text]. rewrite (IH bits extra); [reflexivity| |exact He].
  cbn [length] in Hk. lia.
Qed.



(** X2. On ASCII text the two bit helpers are inverse:
    [_bits_to_text(_text_to_bits(text)) == text]. *)
Theorem bits_roundtrip_ascii (text : str) :
  forallb is_ascii text = true ->
  exists bits, _text_to_bits text = inr bits /\ _bits_to_text bits = inr text.
Proof.
intros Ha. exists (flat_map byte_bits text).
assert (Hb : is_bytes text = true).
{ unfold is_bytes. rewrite forallb_forall in *. intros c Hc.
  specialize (Ha c Hc). unfold is_ascii, is_byte in *.
  apply andb_prop in Ha. apply andb_true_intro. lia. }
split.
- unfold _text_to_bits. rewrite (utf8_encode_ascii _ Ha). reflexivity.
- rewrite (bits_to_text_latin1 _ _ eq_refl (flat_map_byte_bits_is_bit text)).
  unfold latin1_decode. rewrite (bytes_of_bits_byte_bits _ Hb). reflexivity.
Qed.

Lemma bits_roundtrip_ascii_witness :
  exists bits, _text_to_bits (lit "Top secret!") = inr bits
               /\ _bits_to_text bits = inr (lit "Top secret!").
Proof. apply (bits_roundtrip_ascii (lit "Top secret!")). reflexivity. Defined.

(** X3. On bits that are 0 or 1, [_bits_to_text] never raises and returns
    one character below 256 for each complete group of eight bits; up to
    seven bits after the last complete group change nothing. *)
Theorem bits_to_text_groups (bits extra : list Z) (k : nat) :
  forallb is_bit bits = true ->
  length bits = (8 * k)%nat ->
  (length extra < 8)%nat ->
  exists text, _bits_to_text bits = inr text
               /\ length text = k
               /\ is_bytes text = true
               /\ _bits_to_text (bits ++ extra) = inr text.
Proof.
intros Hb Hk He. exists (bytes_of_bits bits).
rewrite (bits_to_text_drops_tail k bits extra Hk He).
rewrite (bits_to_text_latin1 _ _ eq_refl Hb). unfold latin1_decode.
repeat split.
- destruct (bytes_of_bits_length _ bits eq_refl). lia.
- apply bytes_of_bits_is_bytes, Hb.
Qed.

Lemma bits_to_text_groups_witness :
  exists text, _bits_to_text [0; 1; 0; 0; 0; 0; 0; 1] = inr text
               /\ length text = 1%nat
               /\ is_bytes text = true
               /\ _bits_to_text ([0; 1; 0; 0; 0; 0; 0; 1] ++ [1; 1; 0]) = inr text.
Proof.
apply (bits_to_text_groups [0; 1; 0; 0; 0; 0; 0; 1] [1; 1; 0] 1); [reflexivity | reflexivity | cbn; lia].
Defined.

(** ** More about [encode_message] *)

Lemma encode_try_saved_success fs image_path message password r new_img :
  encode_try fs image_path message password = inr (r, Some new_img) ->
  enc_success r = true.
Proof.
intros H. apply encode_try_inv in H as (img & u & ps & _ & _ & _ & _ & _ & _ & ->).
reflexivity.
Qed.

Lemma encode_message_failure_fs fs image_path message output_path password :
  enc_success (encode_message fs image_path message output_path password).1 = false ->
  (encode_message fs image_path message output_path password).2 = fs.
Proof.
unfold encode_message.
destruct (encode_try fs image_path message password) as [e|[r [new_img|]]] eqn:E.
- destruct e; reflexivity.
- cbn [fst]. rewrite (encode_try_saved_success _ _ _ _ _ _ E). discriminate.
- reflexivity.
Qed.

Lemma payload_bits_len u p : len (payload_bits u p) = 8 * (len u + len DELIMITER).
Proof. unfold len. rewrite payload_bits_length, DELIMITER_length. lia. Qed.


(** X4. A message that holds a surrogate code point cannot be encoded as
    UTF-8: [encode_message] answers with the generic error result
    (capacity 0, used 0) and writes nothing. *)
Theorem encode_rejects_surrogates (fs : gmap string file)
    (image_path output_path : string) (message password : str) (img : Image) :
  PIL.open fs image_path = inr img ->
  existsb is_surrogate message = true ->
  encode_message fs image_path message output_path password
  = ({| enc_success := false; enc_message := Error UnicodeEncodeError;
        enc_capacity := 0; enc_used := 0 |}, fs).
Proof.
intros Ho Hs. unfold encode_message, encode_try. rewrite Ho. cbn [bind].
destruct (im_size img) as [w h].
rewrite (utf8_encode_surrogate _ Hs). reflexivity.
Qed.

Lemma encode_rejects_surrogates_witness :
  encode_message disk "in.png" [104; 0xD800] "out.png" []
  = ({| enc_success := false; enc_message := Error UnicodeEncodeError;
        enc_capacity := 0; enc_used := 0 |}, disk).
Proof.
apply (encode_rejects_surrogates disk "in.png" "out.png" [104; 0xD800] [] carrier);
  reflexivity.
Defined.








(** ** Encoding into a picture that already carries a message *)

Lemma set_lsb_idem v bit :
  is_bit bit = true -> set_lsb (set_lsb v bit) bit = set_lsb v bit.
Proof.
intros Hb. unfold set_lsb.
rewrite Z.land_lor_distr_l, <- Z.land_assoc, Z.land_diag.
replace (Z.land bit (Z.lnot 1)) with 0
  by (destruct (is_bit_cases _ Hb) as [-> | ->]; reflexivity).
rewrite Z.lor_0_r. reflexivity.
Qed.

Lemma payload_bits_is_bit u p (i : nat) bit :
  payload_bits u p !! i = Some bit -> is_bit bit = true.
Proof.
intros Hi.
pose proof (flat_map_byte_bits_is_bit (apply_shift u p ++ DELIMITER)) as Hall.
rewrite forallb_forall in Hall. apply Hall, list_elem_of_In.
apply (list_elem_of_lookup_2 _ i), Hi.
Qed.

(** Embedding the same bits a second time changes nothing. *)
Lemma embedded_idem flat u p :
  (length (payload_bits u p) <= length flat)%nat ->
  zip_with set_lsb
    (zip_with set_lsb flat (payload_bits u p)
     ++ drop (length (payload_bits u p)) flat) (payload_bits u p)
  ++ drop (length (payload_bits u p))
       (zip_with set_lsb flat (payload_bits u p)
        ++ drop (length (payload_bits u p)) flat)
  = zip_with set_lsb flat (payload_bits u p)
    ++ drop (length (payload_bits u p)) flat.
Proof.
intros Hlen. apply list_eq. intros i.
rewrite (embedded_lookup _ _ i) by (rewrite embedded_length; exact Hlen).
rewrite (embedded_lookup _ _ i Hlen).
destruct (payload_bits u p !! i) as [bit|] eqn:Hi; [|reflexivity].
destruct (flat !! i) as [v|]; cbn; [|reflexivity].
rewrite set_lsb_idem by exact (payload_bits_is_bit _ _ _ _ Hi). reflexivity.
Qed.

Lemma regroup_flatten_id pixels : regroup (flatten pixels) = inr pixels.
Proof.
induction pixels as [|[[r g] b] ps IH]; [reflexivity|].
unfold flatten in *. cbn [flat_map app regroup]. rewrite IH. reflexivity.
Qed.

Lemma is_bytes_flatten pixels : is_bytes (flatten pixels) = forallb wf_pixel pixels.
Proof.
induction pixels as [|[[r g] b] ps IH]; [reflexivity|].
unfold flatten in *. cbn [flat_map]. rewrite is_bytes_app, IH.
cbn [is_bytes forallb wf_pixel]. rewrite andb_true_r, !andb_assoc. reflexivity.
Qed.

Lemma is_bytes_drop n bs : is_bytes bs = true -> is_bytes (drop n bs) = true.
Proof.
revert n. induction bs as [|b bs IH]; intros [|n]; try reflexivity; [auto|].
cbn [is_bytes forallb drop]. intros [_ Hbs]%andb_prop. exact (IH n Hbs).
Qed.

Lemma is_bytes_embedded bits : forall flat,
  is_bytes flat = true -> forallb is_bit bits = true ->
  is_bytes (zip_with set_lsb flat bits ++ drop (length bits) flat) = true.
Proof.
induction bits as [|bit bits IH]; intros flat Hf Hb.
- rewrite zip_with_nil_r. exact Hf.
- destruct flat as [|v flat]; [reflexivity|].
  cbn [forallb is_bytes] in *. apply andb_prop in Hf as [Hv Hf].
  apply andb_prop in Hb as [Hb1 Hb2].
  cbn [zip_with length drop app forallb is_bytes].
  rewrite (set_lsb_is_byte v bit Hv Hb1). exact (IH flat Hf Hb2).
Qed.

(** What a successful [encode_message] saved: a picture of the same size
    whose channels are the input's with the payload bits embedded, and
    which is well formed when the input is. *)
Lemma encode_message_saved fs image_path message output_path password :
  enc_success (encode_message fs image_path message output_path password).1 = true ->
  exists img u new_pixels,
    PIL.open fs image_path = inr img
    /\ utf8_encode message = inr u
    /\ len (payload_bits u password) <= (im_size img).1 * (im_size img).2 * 3
    /\ (length (payload_bits u password) <= length (flatten (im_rgb img)))%nat
    /\ flatten new_pixels
       = zip_with set_lsb (flatten (im_rgb img)) (payload_bits u password)
         ++ drop (length (payload_bits u password)) (flatten (im_rgb img))
    /\ encode_message fs image_path message output_path password
       = (encode_ok img u password,
          save fs output_path (new_RGB (im_size img) new_pixels))
    /\ (wf_image img = true -> wf_image (new_RGB (im_size img) new_pixels) = true).
Proof.
intros Hok.
destruct (encode_message_success_inv fs _ _ _ _ Hok) as (new_img & Htry & Hfs).
destruct (encode_try_inv fs _ _ _ _ _ Htry)
  as (img & u & new_pixels & Ho & Hu & Hcap & Hlen & Hflat & -> & Hr).
exists img, u, new_pixels. repeat split; try assumption.
- rewrite <- Hr, <- Hfs. apply surjective_pairing.
- unfold wf_image. cbn [new_RGB im_size im_rgb].
  destruct (im_size img) as [w h].
  intros Hwf.
  repeat match type of Hwf with _ && _ = true => apply andb_prop in Hwf as [Hwf ?] end.
  assert (Hl : length new_pixels = length (im_rgb img)).
  { pose proof (f_equal length Hflat) as E.
    rewrite embedded_length, !flatten_length in E by exact Hlen. lia. }
  repeat (apply andb_true_intro; split); try assumption.
  + unfold len in *. rewrite Hl. assumption.
  + rewrite <- is_bytes_flatten, Hflat. apply is_bytes_embedded.
    * rewrite is_bytes_flatten. assumption.
    * apply flat_map_byte_bits_is_bit.
Qed.

(** X8. Encoding is idempotent: running [encode_message] again on the
    picture it has just saved, with the same message and password and the
    same output path, returns the same result and leaves every file as it
    is. *)
Theorem encode_idempotent (fs : gmap string file) (image_path output_path : string)
    (message password : str) :
  enc_success (encode_message fs image_path message output_path password).1 = true ->
  encode_message (encode_message fs image_path message output_path password).2
                 output_path message output_path password
  = encode_message fs image_path message output_path password.
Proof.
intros Hok.
destruct (encode_message_saved fs _ _ _ _ Hok)
  as (img & u & new_pixels & Ho & Hu & Hcap & Hlen & Hflat & -> & _).
cbn [snd]. unfold encode_message at 1. unfold encode_try.
rewrite open_save. cbn [bind new_RGB im_size im_rgb].
unfold encode_ok. destruct (im_size img) as [w h] eqn:Hsz. cbn [fst snd] in *.
rewrite Hu. cbn [bind]. rewrite utf8_encode_DELIMITER. cbn [bind].
fold (payload_bits u password).
replace (len (payload_bits u password) >? w * h * 3) with false by (symmetry; lia).
rewrite embed_enumerate, Hflat.
rewrite bool_decide_eq_true_2 by (rewrite embedded_length; exact Hlen).
cbn [bind ret]. rewrite (embedded_idem _ _ _ Hlen), <- Hflat, regroup_flatten_id.
cbn [bind ret]. unfold save, new_RGB. rewrite insert_insert_eq. reflexivity.
Qed.

Lemma encode_idempotent_witness :
  encode_message (encode_message disk "in.png" (lit "hi") "out.png" (lit "pw")).2
                 "out.png" (lit "hi") "out.png" (lit "pw")
  = encode_message disk "in.png" (lit "hi") "out.png" (lit "pw").
Proof.
apply (encode_idempotent disk "in.png" "out.png" (lit "hi") (lit "pw")). reflexivity.
Defined.

(** X9. [encode_message] keeps pictures well formed: from a carrier with
    [width * height] pixels of 8-bit channels it saves a picture of the same
    size, with as many pixels, whose channels are again 8-bit values. *)
Theorem encode_preserves_wf (fs : gmap string file) (image_path output_path : string)
    (message password : str) (img : Image) :
  PIL.open fs image_path = inr img ->
  wf_image img = true ->
  enc_success (encode_message fs image_path message output_path password).1 = true ->
  exists new_img,
    PIL.open (encode_message fs image_path message output_path password).2 output_path
    = inr new_img
    /\ im_size new_img = im_size img
    /\ length (im_rgb new_img) = length (im_rgb img)
    /\ wf_image new_img = true.
Proof.
intros Ho Hwf Hok.
destruct (encode_message_saved fs _ _ _ _ Hok)
  as (img' & u & new_pixels & Ho' & Hu & Hcap & Hlen & Hflat & -> & Hwf').
rewrite Ho in Ho'. injection Ho' as <-.
exists (new_RGB (im_size img) new_pixels). cbn [snd].
rewrite open_save. repeat split; [|exact (Hwf' Hwf)].
cbn [new_RGB im_rgb].
pose proof (f_equal length Hflat) as E.
rewrite embedded_length, !flatten_length in E by exact Hlen. lia.
Qed.

Lemma encode_preserves_wf_witness :
  exists new_img,
    PIL.open (encode_message disk "in.png" (lit "hi") "out.png" (lit "pw")).2 "out.png"
    = inr new_img
    /\ im_size new_img = im_size carrier
    /\ length (im_rgb new_img) = length (im_rgb carrier)
    /\ wf_image new_img = true.
Proof.
apply (encode_preserves_wf disk "in.png" "out.png" (lit "hi") (lit "pw") carrier);
  reflexivity.
Defined.

(** X10. A second message replaces the first: after encoding [m1] and then
    encoding [m2] into the picture just saved, decoding with the second
    password returns [m2], provided [m2] fits and its shifted bytes hold no
    delimiter. *)
Theorem second_message_replaces_first (fs : gmap string file)
    (image_path stego_path output_path : string) (m1 p1 m2 p2 : str)
    (img : Image) (u2 : bytes) :
  PIL.open fs image_path = inr img ->
  wf_image img = true ->
  enc_success (encode_message fs image_path m1 stego_path p1).1 = true ->
  utf8_encode m2 = inr u2 ->
  8 * (len u2 + len DELIMITER) <= (im_size img).1 * (im_size img).2 * 3 ->
  (forall j, ~ delimiter_at (apply_shift u2 p2) j) ->
  decode_message
    (encode_message (encode_message fs image_path m1 stego_path p1).2
                    stego_path m2 output_path p2).2
    output_path p2
  = {| dec_success := true; dec_message := Extracted; dec_secret := Some m2 |}.
Proof.
intros Ho Hwf Hok Hu2 Hfit Hno.
destruct (encode_message_saved fs _ _ _ _ Hok)
  as (img' & u & new_pixels & Ho' & _ & _ & _ & _ & -> & Hwf').
rewrite Ho in Ho'. injection Ho' as <-. cbn [snd].
apply (roundtrip_same_checksum _ stego_path m2 output_path p2 p2
         (new_RGB (im_size img) new_pixels) u2).
- apply open_save.
- exact Hu2.
- exact (Hwf' Hwf).
- rewrite payload_bits_len. exact Hfit.
- reflexivity.
- exact Hno.
Qed.

Lemma second_message_replaces_first_witness :
  decode_message
    (encode_message (encode_message disk "in.png" (lit "first") "s.png" (lit "a")).2
                    "s.png" (lit "2nd") "out.png" (lit "b")).2
    "out.png" (lit "b")
  = {| dec_success := true; dec_message := Extracted;
       dec_secret := Some (lit "2nd") |}.
Proof.
apply (second_message_replaces_first disk "in.png" "s.png" "out.png"
         (lit "first") (lit "a") (lit "2nd") (lit "b") carrier (lit "2nd")).
- reflexivity.
- reflexivity.
- reflexivity.
- reflexivity.
- vm_compute. discriminate.
- intros j H. apply (f_equal length) in H.
  rewrite length_take, length_drop, apply_shift_length, DELIMITER_length in H.
  change (length (lit "2nd")) with 3%nat in H. lia.
Defined.

(** ** More about [decode_message] *)

Lemma stream_length img :
  (8 * length (stream img) <= 3 * length (im_rgb img))%nat.
Proof.
unfold stream.
destruct (bytes_of_bits_length _ (map lsb (flatten (im_rgb img))) eq_refl) as [H _].
rewrite length_map, flatten_length in H. exact H.
Qed.

Lemma first_delimiter_fits bs n :
  first_delimiter bs n -> (n + 7 <= length bs)%nat.
Proof.
intros [H _]. destruct (le_lt_dec (n + 7) (length bs)) as [L|L]; [exact L|].
exfalso. exact (delimiter_at_short bs n L H).
Qed.

(** X11. A secret never exceeds what the picture can carry: when
    [decode_message] succeeds, eight bits for each character of the secret
    and each delimiter byte fit in the three channels of the pixels; so a
    picture of fewer than 19 pixels never yields a message. *)
Theorem decode_secret_bounded (fs : gmap string file) (image_path : string)
    (password : str) :
  dec_success (decode_message fs image_path password) = true ->
  exists img secret,
    PIL.open fs image_path = inr img
    /\ dec_secret (decode_message fs image_path password) = Some secret
    /\ 8 * (len secret + len DELIMITER) <= 3 * len (im_rgb img)
    /\ 19 <= len (im_rgb img).
Proof.
intros Hok.
destruct (decode_message_success_inv fs _ _ Hok) as (img & n & Ho & Hn & Hs).
exists img. eexists. split; [exact Ho|]. split; [exact Hs|].
pose proof (first_delimiter_fits _ _ Hn) as Hfit.
pose proof (stream_length img) as Hst.
pose proof (decode_text_length (reverse_shift (take n (stream img)) password)) as Hd.
rewrite reverse_shift_length, length_take in Hd.
unfold len. rewrite DELIMITER_length. lia.
Qed.

Lemma decode_secret_bounded_witness :
  exists img secret,
    PIL.open {[ "s.png"%string := Picture stego ]} "s.png" = inr img
    /\ dec_secret (decode_message {[ "s.png"%string := Picture stego ]} "s.png" [])
       = Some secret
    /\ 8 * (len secret + len DELIMITER) <= 3 * len (im_rgb img)
    /\ 19 <= len (im_rgb img).
Proof.
apply (decode_secret_bounded {[ "s.png"%string := Picture stego ]} "s.png" []).
reflexivity.
Defined.

Lemma lsb_even v : Z.even v = true -> lsb v = 0.
Proof.
intros H. unfold lsb. change (Z.land v 1) with (Z.land v (Z.ones 1)).
rewrite Z.land_ones by lia. apply Z.even_spec in H as [k ->].
change (2 ^ 1) with 2. lia.
Qed.

Lemma map_lsb_flatten_even pixels :
  forallb even_pixel pixels = true ->
  Forall (fun b => b = 0) (map lsb (flatten pixels)).
Proof.
induction pixels as [|[[r g] b] ps IH]; [constructor|].
cbn [forallb even_pixel]. intros [H Hps]%andb_prop.
apply andb_prop in H as [H Hb]. apply andb_prop in H as [Hr Hg].
unfold flatten in *. cbn [flat_map app map].
repeat constructor; try (apply lsb_even; assumption). exact (IH Hps).
Qed.

Lemma bytes_of_bits_zero (k : nat) : forall bits,
  length bits = k -> Forall (fun b => b = 0) bits ->
  Forall (fun b => b = 0) (bytes_of_bits bits).
Proof.
induction k as [k IH] using lt_wf_ind. intros bits Hk Hz.
do 8 (destruct bits as [|? bits]; [constructor|]).
cbn [bytes_of_bits].
repeat match goal with
  | H : Forall _ (_ :: _) |- _ => apply Forall_cons in H as [-> H]
  end.
constructor; [reflexivity|].
apply (IH (length bits)); [cbn in Hk; lia | reflexivity | assumption].
Qed.

(** X12. A picture whose channel values are all even (for instance a
    freshly made image of one even colour) holds no message:
    [decode_message] reports "no hidden message", whatever the password. *)
Theorem even_picture_has_no_message (fs : gmap string file) (image_path : string)
    (password : str) (img : Image) :
  PIL.open fs image_path = inr img ->
  forallb even_pixel (im_rgb img) = true ->
  decode_message fs image_path password
  = {| dec_success := false; dec_message := NoHiddenMessage; dec_secret := None |}.
Proof.
intros Ho Heven. apply (decode_message_not_found fs _ _ img Ho).
intros n Hn.
assert (Hz : Forall (fun b => b = 0) (stream img))
  by (apply (bytes_of_bits_zero _ _ eq_refl), map_lsb_flatten_even, Heven).
unfold delimiter_at in Hn.
assert (Hz' : Forall (fun b => b = 0) (take (length DELIMITER) (drop n (stream img))))
  by (apply Forall_take, Forall_drop, Hz).
rewrite Hn in Hz'. apply Forall_cons in Hz' as [E _]. discriminate E.
Qed.

Lemma even_picture_has_no_message_witness :
  decode_message disk "in.png" (lit "hunter2")
  = {| dec_success := false; dec_message := NoHiddenMessage; dec_secret := None |}.
Proof.
apply (even_picture_has_no_message disk "in.png" (lit "hunter2") carrier);
  reflexivity.
Defined.

(** X13. What a wrong password gives: when the shifted payload holds no
    delimiter, decoding with any password [p2] succeeds, and the secret is
    the text of the message bytes each moved by the difference of the two
    checksums modulo 256. *)
Theorem decode_shifts_by_checksum_difference (fs : gmap string file)
    (image_path output_path : string) (message p1 p2 : str)
    (img : Image) (u : bytes) :
  PIL.open fs image_path = inr img ->
  wf_image img = true ->
  utf8_encode message = inr u ->
  8 * (len u + len DELIMITER) <= (im_size img).1 * (im_size img).2 * 3 ->
  (forall j, ~ delimiter_at (apply_shift u p1) j) ->
  decode_message (encode_message fs image_path message output_path p1).2
                 output_path p2
  = {| dec_success := true; dec_message := Extracted;
       dec_secret :=
         Some (decode_text
                 (map (fun b => (b + (shift_of p1 - shift_of p2)) mod 256) u)) |}.
Proof.
intros Ho Hwf Hu Hfit Hno.
pose proof (utf8_encode_range _ _ Hu) as Hb.
destruct (encode_message_fits fs image_path message output_path p1 img u Ho Hu Hwf)
  as (new_pixels & tail & -> & Hst); [rewrite payload_bits_len; exact Hfit|].
cbn [snd].
rewrite (decode_message_found _ output_path p2 _ (length (apply_shift u p1))
           (open_save _ _ _)).
- rewrite Hst, take_app_length.
  rewrite reverse_shift_eq by (apply apply_shift_is_bytes, Hb).
  rewrite apply_shift_eq by exact Hb. rewrite map_map.
  do 3 f_equal. apply map_ext. intros b.
  rewrite Zminus_mod_idemp_l. f_equal. lia.
- rewrite Hst. apply first_delimiter_payload, Hno.
Qed.

Lemma decode_shifts_by_checksum_difference_witness :
  decode_message (encode_message disk "in.png" (lit "hi") "out.png" (lit "b")).2
                 "out.png" (lit "a")
  = {| dec_success := true; dec_message := Extracted;
       dec_secret :=
         Some (decode_text
                 (map (fun b => (b + (shift_of (lit "b") - shift_of (lit "a"))) mod 256)
                      (lit "hi"))) |}.
Proof.
apply (decode_shifts_by_checksum_difference disk "in.png" "out.png"
         (lit "hi") (lit "b") (lit "a") carrier (lit "hi")).
- reflexivity.
- reflexivity.
- reflexivity.
- vm_compute. discriminate.
- intros j H. apply (f_equal length) in H.
  rewrite length_take, length_drop, apply_shift_length, DELIMITER_length in H.
  change (length (lit "hi")) with 2%nat in H. lia.
Defined.

(** X14. A message that contains the delimiter text comes back cut at its
    first occurrence: encoded without password, [a + "<<END>>" + b]
    decodes to [a] when the bytes of [a] hold no delimiter. *)
Theorem delimiter_in_message_truncates (fs : gmap string file)
    (image_path output_path : string) (a b : str) (img : Image) (ua ub : bytes) :
  PIL.open fs image_path = inr img ->
  wf_image img = true ->
  utf8_encode a = inr ua ->
  utf8_encode b = inr ub ->
  8 * (len ua + len DELIMITER + len ub + len DELIMITER)
  <= (im_size img).1 * (im_size img).2 * 3 ->
  (forall j, ~ delimiter_at ua j) ->
  decode_message
    (encode_message fs image_path (a ++ DELIMITER ++ b) output_path []).2
    output_path []
  = {| dec_success := true; dec_message := Extracted; dec_secret := Some a |}.
Proof.
intros Ho Hwf Ha Hb Hfit Hno.
assert (Hu : utf8_encode (a ++ DELIMITER ++ b) = inr (ua ++ DELIMITER ++ ub)).
{ apply utf8_encode_app; [exact Ha|].
  apply utf8_encode_app; [apply utf8_encode_DELIMITER | exact Hb]. }
destruct (encode_message_fits fs image_path (a ++ DELIMITER ++ b) output_path []
            img _ Ho Hu Hwf) as (new_pixels & tail & -> & Hst).
{ rewrite payload_bits_len. unfold len in *. rewrite !length_app. lia. }
cbn [snd apply_shift] in *.
rewrite (decode_message_found _ output_path [] _ (length ua) (open_save _ _ _)).
- rewrite Hst, <- !app_assoc, take_app_length. cbn [reverse_shift].
  unfold decode_text. rewrite (utf8_decode_encode _ _ Ha). reflexivity.
- rewrite Hst, <- !app_assoc. apply first_delimiter_payload, Hno.
Qed.

Lemma delimiter_in_message_truncates_witness :
  decode_message
    (encode_message {[ "sq.png"%string := Picture square_carrier ]} "sq.png"
                    (lit "a" ++ DELIMITER ++ lit "b") "out.png" []).2
    "out.png" []
  = {| dec_success := true; dec_message := Extracted; dec_secret := Some (lit "a") |}.
Proof.
apply (delimiter_in_message_truncates {[ "sq.png"%string := Picture square_carrier ]}
         "sq.png" "out.png" (lit "a") (lit "b") square_carrier (lit "a") (lit "b")).
- reflexivity.
- reflexivity.
- reflexivity.
- reflexivity.
- vm_compute. discriminate.
- intros j H. apply (f_equal length) in H.
  rewrite length_take, length_drop, DELIMITER_length in H.
  change (length (lit "a")) with 1%nat in H. lia.
Defined.

(** ** The command line *)



(** X16. A failing [cmd_encode] touches no file: when it exits with
    status 1 the files are as before, standard output has only the opening
    line, and standard error has one line; it exits with status 1 exactly
    when [encode_message] reports failure. *)
Theorem cli_encode_failure (args : cli_args) (w : world) :
  ((cmd_encode args w).2 = Some 1
   <-> enc_success
         (encode_message (w_fs w) (arg_image args) (arg_message args)
            (arg_output args) (password_or_empty (arg_password args))).1 = false)
  /\ ((cmd_encode args w).2 = Some 1 ->
      w_fs (cmd_encode args w).1 = w_fs w
      /\ w_stdout (cmd_encode args w).1
         = w_stdout w ++ [EncodingInto (arg_image args)]
      /\ exists message,
           w_stderr (cmd_encode args w).1 = w_stderr w ++ [Cross message]).
Proof.
pose proof (encode_message_failure_fs (w_fs w) (arg_image args) (arg_message args)
              (arg_output args) (password_or_empty (arg_password args))) as Hfs.
unfold cmd_encode. cbn [print w_fs w_stdout w_stderr].
destruct (encode_message _ _ _ _ _) as [r fs'] eqn:E. cbn [fst snd] in *.
destruct (enc_success r) eqn:Hr; cbn [fst snd eprint print w_fs w_stdout w_stderr].
- split; [split; discriminate | discriminate].
- split; [split; reflexivity|]. intros _.
  split; [exact (Hfs eq_refl)|]. split; [reflexivity|]. eexists. reflexivity.
Qed.

Lemma cli_encode_failure_witness :
  w_fs (cmd_encode {| arg_image := "none.png"; arg_message := lit "hi";
                      arg_output := "out.png"; arg_password := Some (lit "pw") |}
                   {| w_fs := disk; w_stdout := []; w_stderr := [] |}).1 = disk
  /\ w_stdout (cmd_encode {| arg_image := "none.png"; arg_message := lit "hi";
                             arg_output := "out.png"; arg_password := Some (lit "pw") |}
                          {| w_fs := disk; w_stdout := []; w_stderr := [] |}).1
     = [] ++ [EncodingInto "none.png"]
  /\ exists message,
       w_stderr (cmd_encode {| arg_image := "none.png"; arg_message := lit "hi";
                               arg_output := "out.png"; arg_password := Some (lit "pw") |}
                            {| w_fs := disk; w_stdout := []; w_stderr := [] |}).1
       = [] ++ [Cross message].
Proof.
destruct (cli_encode_failure
            {| arg_image := "none.png"; arg_message := lit "hi";
               arg_output := "out.png"; arg_password := Some (lit "pw") |}
            {| w_fs := disk; w_stdout := []; w_stderr := [] |}) as [_ H].
apply H. reflexivity.
Defined.


